(** * Directional fibers: the solvers of [dfibers/solvers.py]

    A shallow embedding of [local_solver] and [fiber_solver] together with
    the numpy operations they rely on, of the fiber tracer and of the
    deduplication they are used with, followed by the properties of the
    candidate extraction, of the within-fiber step controller, of the result
    dictionaries, of the step budget and of deduplication.

    Numbers.  The program computes with numpy [float64] scalars.  Rounding is
    abstracted away: a finite scalar is an exact rational.  The special values
    are kept, because the code divides without a guard: [inf], [-inf] and
    [nan] are values of the model with the IEEE rules for them (zeros are
    unsigned and behave as [+0.0]).

    Arrays.  A column vector is a list of scalars; a matrix built with
    [np.concatenate(..., axis=1)] from column vectors is the list of its
    columns.  An augmented point [[v; alpha]] is a record, so that [X[-1,:]]
    is the list of the [alpha] fields and [X[:-1,[i]]] the [v] field of the
    [i]-th column.

    Effects.  The clock, the samplers and the random defaults read and change
    a world that is threaded through the calls; a call returns a value,
    raises, or, for the model of a loop without a bound of its own, runs out
    of fuel. *)

From Stdlib Require Import QArith Qabs Qminmax Lqa.
From Stdlib Require Import List Bool Arith Lia Sorted.
Import ListNotations.

Set Implicit Arguments.
Close Scope Q_scope.

(* ================================================================= *)
(** ** numpy scalars *)

Module NP.

Local Open Scope Q_scope.

Inductive float : Type :=
| Fin (q : Q)
| PInf
| NInf
| NaN.

Definition is_finite (x : float) : bool :=
  match x with Fin _ => true | _ => false end.

Definition Qltb (a b : Q) : bool := negb (Qle_bool b a).

(** The sign of a rational as a rational: -1, 0 or 1. *)
Definition Qsign (q : Q) : Q := inject_Z (Z.sgn (Qnum q)).

(** Unary minus. *)
Definition neg (x : float) : float :=
  match x with
  | Fin q => Fin (- q)
  | PInf => NInf
  | NInf => PInf
  | NaN => NaN
  end.

(** [np.fabs] *)
Definition fabs (x : float) : float :=
  match x with
  | Fin q => Fin (Qabs q)
  | PInf | NInf => PInf
  | NaN => NaN
  end.

(** [np.sign]: -1, 0, 1, and nan for nan. *)
Definition sign (x : float) : float :=
  match x with
  | Fin q => Fin (Qsign q)
  | PInf => Fin 1
  | NInf => Fin (-1)
  | NaN => NaN
  end.

(** [a < b]; every comparison with nan is false. *)
Definition lt (a b : float) : bool :=
  match a, b with
  | NaN, _ | _, NaN => false
  | Fin p, Fin q => Qltb p q
  | NInf, NInf => false
  | NInf, _ => true
  | _, NInf => false
  | PInf, _ => false
  | Fin _, PInf => true
  end.

(** [a <= b] *)
Definition le (a b : float) : bool :=
  match a, b with
  | NaN, _ | _, NaN => false
  | Fin p, Fin q => Qle_bool p q
  | NInf, _ => true
  | _, NInf => false
  | _, PInf => true
  | PInf, Fin _ => false
  end.

(** [a >= b] *)
Definition ge (a b : float) : bool := le b a.

(** [a == b]; nan is equal to nothing. *)
Definition eqb (a b : float) : bool :=
  match a, b with
  | Fin p, Fin q => Qeq_bool p q
  | PInf, PInf => true
  | NInf, NInf => true
  | _, _ => false
  end.

(** [a != b] *)
Definition ne (a b : float) : bool := negb (eqb a b).

(** [a + b]; opposite infinities add up to nan. *)
Definition add (a b : float) : float :=
  match a, b with
  | NaN, _ | _, NaN => NaN
  | Fin p, Fin q => Fin (p + q)
  | PInf, NInf | NInf, PInf => NaN
  | PInf, _ | _, PInf => PInf
  | NInf, _ | _, NInf => NInf
  end.

(** [a * b]; zero times an infinity is nan. *)
Definition mul (a b : float) : float :=
  match a, b with
  | NaN, _ | _, NaN => NaN
  | Fin p, Fin q => Fin (p * q)
  | Fin p, PInf | PInf, Fin p =>
      if Qeq_bool p 0 then NaN else if Qltb 0 p then PInf else NInf
  | Fin p, NInf | NInf, Fin p =>
      if Qeq_bool p 0 then NaN else if Qltb 0 p then NInf else PInf
  | PInf, PInf | NInf, NInf => PInf
  | PInf, NInf | NInf, PInf => NInf
  end.

(** [a / b] on numpy scalars: a zero denominator raises nothing, the
    quotient is an infinity, or nan for [0/0].  On finite operands the
    quotient is the exact rational: the rounding of [float64], its overflow
    to an infinity and its underflow to zero are not modelled. *)
Definition div (a b : float) : float :=
  match a, b with
  | NaN, _ | _, NaN => NaN
  | Fin p, Fin q =>
      if Qeq_bool q 0
      then (if Qeq_bool p 0 then NaN else if Qltb 0 p then PInf else NInf)
      else Fin (p / q)
  | Fin _, (PInf | NInf) => Fin 0
  | PInf, Fin q => if Qle_bool 0 q then PInf else NInf
  | NInf, Fin q => if Qle_bool 0 q then NInf else PInf
  | (PInf | NInf), (PInf | NInf) => NaN
  end.

(** Python's builtin [min(a, b)]: the first argument is kept unless the
    second is smaller. *)
Definition pymin (a b : float) : float := if lt b a then b else a.

(** [np.sign(r) * min(np.fabs(r), fs)] when both operands are finite. *)
Definition blend (r fs : Q) : Q :=
  Qsign r * (if Qltb fs (Qabs r) then fs else Qabs r).

End NP.

(* ================================================================= *)
(** ** Python values: exceptions, slices, arrays *)

Module Py.

Inductive exn : Type :=
| ValueError      (* np.concatenate of an empty list *)
| IndexError      (* index out of range *)
| TracerError.    (* raised inside tv.traverse_fiber *)

(** The outcome of running a piece of the program: a value, a raised
    exception, or [NoFuel] when the model of an unbounded loop stopped
    before the loop did. *)
Inductive result (A : Type) : Type :=
| Ok (a : A)
| Raise (e : exn)
| NoFuel.

Arguments Ok {A} a.
Arguments Raise {A} e.
Arguments NoFuel {A}.

(** Effectful code: the random generators and the clock live in a world
    that is threaded through the calls. *)
Definition M (World A : Type) : Type := World -> result A * World.

Definition ret {World A} (a : A) : M World A := fun w => (Ok a, w).

Definition bind {World A B} (m : M World A) (k : A -> M World B) : M World B :=
  fun w =>
    match m w with
    | (Ok a, w') => k a w'
    | (Raise e, w') => (Raise e, w')
    | (NoFuel, w') => (NoFuel, w')
    end.

Definition lift {World A} (r : result A) : M World A := fun w => (r, w).

(** [l[lo : len(l) - back]], the slices [l[:-1]], [l[1:]], [l[1:-1]],
    [l[2:]] and [l[:-2]] of the source; an out-of-range bound is clipped. *)
Definition slice {A} (lo back : nat) (l : list A) : list A :=
  firstn (length l - back - lo) (skipn lo l).

(** [m[lo : len(m) - back] = new] *)
Definition assign {A} (lo back : nat) (m new : list A) : list A :=
  let start := Nat.min lo (length m) in
  let stop := Nat.max start (length m - back) in
  firstn start m ++ new ++ skipn stop m.

(** Element-wise binary operation on two arrays of the same shape. *)
Definition map2 {A B C} (f : A -> B -> C) (l1 : list A) (l2 : list B) : list C :=
  map (fun p => f (fst p) (snd p)) (combine l1 l2).

(** [np.concatenate(cols, axis=1)] of column vectors: the matrix with these
    columns; numpy refuses an empty list. *)
Definition np_concatenate {A} (cols : list A) : result (list A) :=
  match cols with
  | [] => Raise ValueError
  | _ => Ok cols
  end.

(** [m[[0, -1]] = True] *)
Definition set_endpoints (m : list bool) : result (list bool) :=
  match m with
  | [] => Raise IndexError
  | _ :: rest => Ok (removelast (true :: rest) ++ [true])
  end.

(** [X[:, mask]]: the columns at which the mask is set. *)
Fixpoint select {A} (X : list A) (mask : list bool) : list A :=
  match X, mask with
  | x :: X', b :: mask' => if b then x :: select X' mask' else select X' mask'
  | _, _ => []
  end.

(** [np.flatnonzero(mask)], counting from [i]. *)
Fixpoint flatnonzero_from (i : nat) (mask : list bool) : list nat :=
  match mask with
  | [] => []
  | b :: mask' =>
      if b then i :: flatnonzero_from (S i) mask' else flatnonzero_from (S i) mask'
  end.

Definition flatnonzero (mask : list bool) : list nat := flatnonzero_from 0 mask.

(** [l[-1]] *)
Definition last_item {A} (l : list A) : result A :=
  match l with
  | [] => Raise IndexError
  | a :: l' => Ok (last l' a)
  end.

End Py.

Notation "x <- m ;; k" := (Py.bind m (fun x => k))
  (at level 61, m at next level, right associativity).

(* ================================================================= *)
(** ** Traces and the interface of the fiber tracer *)

Definition vec : Type := list NP.float.

(** A column [[v; alpha]] of length N+1; a tangent has the same shape. *)
Record AugPoint : Type := mkAug { v_of : vec; alpha_of : NP.float }.

Inductive Status : Type :=
| Running | Terminated | MaxSteps | TimedOut | Converged.

Section StepData.

(** The caller's per-step diagnostics are opaque; the refinement controller
    returns the tuple [(refine_step_amount, fiber_step_amount,
    fiber_step_data)]. *)
Variable D : Type.

Inductive step_data : Type :=
| Opaque (d : D)
| RefineData (refine_step_amount fiber_step_amount : NP.float)
             (fiber_step_data : step_data).

(** A trace: the points visited, the direction [trace.c], the current point
    [trace.x] and tangent [trace.z], the status, and the diagnostics kept
    per step (the controller's data and the corrector's residuals). *)
Record FiberTrace : Type := mkTrace {
  tr_points : list AugPoint;
  tr_c : vec;
  tr_x : AugPoint;
  tr_z : AugPoint;
  tr_status : Status;
  tr_step_data : list step_data;
  tr_residuals : list (list NP.float)
}.

Definition controller : Type := FiberTrace -> NP.float * step_data.

(** [compute_refine_step_amount], the closure that [fiber_solver] builds
    around the caller's [compute_step_amount]. *)
Definition compute_refine_step_amount
    (compute_step_amount : controller) : controller :=
  fun trace =>
    let refine_step_amount :=
      NP.div (NP.neg (alpha_of (tr_x trace))) (alpha_of (tr_z trace)) in
    let '(fiber_step_amount, fiber_step_data) := compute_step_amount trace in
    let step_amount :=
      NP.mul (NP.sign refine_step_amount)
             (NP.pymin (NP.fabs refine_step_amount) fiber_step_amount) in
    let step_data :=
      RefineData refine_step_amount fiber_step_amount fiber_step_data in
    (step_amount, step_data).

(** The keyword arguments of [tv.traverse_fiber]. *)
Record TraverseArgs (Jac Log : Type) : Type := mkArgs {
  arg_f : vec -> vec;
  arg_Df : vec -> Jac;
  arg_ef : vec -> vec;
  arg_compute_step_amount : controller;
  arg_v : option vec;
  arg_c : option vec;
  arg_z : option AugPoint;
  arg_N : option nat;
  arg_terminate : option (FiberTrace -> bool);
  arg_logfile : option Log;
  arg_stop_time : option NP.float;
  arg_max_traverse_steps : option nat;
  arg_max_step_size : option NP.float;
  arg_max_solve_iterations : option nat
}.

(** The dictionary returned by [fiber_solver]. *)
Record Solution : Type := mkSolution {
  Fiber_trace : FiberTrace;
  Fixed_points : list vec;
  Refinements : list FiberTrace;
  Fixed_index : list nat
}.

End StepData.

Arguments Opaque {D} d.

(* ================================================================= *)
(** ** [fiber_solver] *)

(** Modelled from the spec: [fx.is_fixed] lives in [fixed_points.py], which
    is not among the sources.  Section 4.4: a point [v] is accepted as a
    fixed point if [|f(v)| <= ef(v)] element-wise.  The solver reads
    component [0] of its result for a single column, which is this test. *)
Definition is_fixed (v : vec) (f ef : vec -> vec) : bool :=
  forallb (fun p => NP.le (NP.fabs (fst p)) (snd p)) (combine (f v) (ef v)).

(** Lines 131-138: the mask over the alpha sequence [a] before the
    redundancy with neighbours. *)
Definition mark_candidates (local_abs_min : bool) (a : list NP.float)
  : Py.result (list bool) :=
  let fixed_index := repeat false (length a) in
  (* endpoints *)
  match Py.set_endpoints fixed_index with
  | Py.Ok fixed_index =>
      (* sign changes *)
      let fixed_index :=
        Py.assign 0 1 fixed_index
          (Py.map2 orb (Py.slice 0 1 fixed_index)
             (Py.map2 NP.ne (map NP.sign (Py.slice 0 1 a))
                            (map NP.sign (Py.slice 1 0 a)))) in
      (* local minima of alpha magnitude *)
      let fixed_index :=
        if local_abs_min then
          Py.assign 1 1 fixed_index
            (Py.map2 orb (Py.slice 1 1 fixed_index)
               (Py.map2 andb
                  (Py.map2 NP.le (map NP.fabs (Py.slice 1 1 a))
                                 (map NP.fabs (Py.slice 2 0 a)))
                  (Py.map2 NP.le (map NP.fabs (Py.slice 1 1 a))
                                 (map NP.fabs (Py.slice 0 2 a)))))
        else fixed_index in
      Py.Ok fixed_index
  | Py.Raise e => Py.Raise e
  | Py.NoFuel => Py.NoFuel
  end.

(** Lines 140-141: extra redundancy with neighbours, in two passes; the
    right-hand side of each pass is evaluated before the assignment. *)
Definition expand_neighbors (fixed_index : list bool) : list bool :=
  let fixed_index :=
    Py.assign 0 1 fixed_index
      (Py.map2 orb (Py.slice 0 1 fixed_index) (Py.slice 1 0 fixed_index)) in
  Py.assign 1 0 fixed_index
    (Py.map2 orb (Py.slice 1 0 fixed_index) (Py.slice 0 1 fixed_index)).

Section FiberSolver.

Variables World D Jac Log : Type.

(** [tv.traverse_fiber] lives in [traversal.py], which is not among the
    sources: the solver is embedded over an arbitrary tracer, which may read
    and change the world (random defaults, clock) and may raise. *)
Variable traverse_fiber :
  TraverseArgs D Jac Log -> Py.M World (FiberTrace D).

Section Call.

Variables (f : vec -> vec) (ef : vec -> vec) (Df : vec -> Jac).
Variable compute_step_amount : controller D.
Variables (v : option vec) (c : option vec) (z : option AugPoint)
          (N : option nat).
Variable terminate : option (FiberTrace D -> bool).
Variable logfile : option Log.
Variable stop_time : option NP.float.
Variable max_traverse_steps : option nat.
Variable max_step_size : option NP.float.
Variable max_solve_iterations : option nat.
Variables local_abs_min within_fiber : bool.

(** Lines 158-181: the loop over the columns of [X], with the two lists it
    appends to; [c'] and [refine_terminate] are the direction and the
    predicate set up before the loop. *)
Fixpoint refine_candidates (c' : vec)
    (refine_terminate : FiberTrace D -> bool) (X : list AugPoint)
    (refinement_results : list (FiberTrace D)) (fixed_points : list vec)
  : Py.M World (list (FiberTrace D) * list vec) :=
  match X with
  | [] => Py.ret (refinement_results, fixed_points)
  | Xi :: X' =>
      let candidate := v_of Xi in
      if within_fiber then
        refinement_result <-
          traverse_fiber
            {| arg_f := f;
               arg_Df := Df;
               arg_ef := ef;
               arg_compute_step_amount :=
                 compute_refine_step_amount compute_step_amount;
               arg_v := Some candidate;
               arg_c := Some c';
               arg_z := None;
               arg_N := None;
               arg_terminate := Some refine_terminate;
               arg_logfile := logfile;
               arg_stop_time := stop_time;
               arg_max_traverse_steps := Some (2 ^ 5);
               arg_max_step_size := max_step_size;
               arg_max_solve_iterations := max_solve_iterations |} ;;
        let refinement_results := refinement_results ++ [refinement_result] in
        last_point <- Py.lift (Py.last_item (tr_points refinement_result)) ;;
        let candidate := v_of last_point in
        refine_candidates c' refine_terminate X'
          refinement_results (fixed_points ++ [candidate])
      else
        refine_candidates c' refine_terminate X'
          refinement_results (fixed_points ++ [candidate])
  end.

Definition fiber_solver : Py.M World (Solution D) :=
  (* Traverse fiber *)
  fiber_result <-
    traverse_fiber
      {| arg_f := f;
         arg_Df := Df;
         arg_ef := ef;
         arg_compute_step_amount := compute_step_amount;
         arg_v := v;
         arg_c := c;
         arg_z := z;
         arg_N := N;
         arg_terminate := terminate;
         arg_logfile := logfile;
         arg_stop_time := stop_time;
         arg_max_traverse_steps := max_traverse_steps;
         arg_max_step_size := max_step_size;
         arg_max_solve_iterations := max_solve_iterations |} ;;
  (* Keep final direction vector if random default *)
  let c' := tr_c fiber_result in
  (* Extract candidate fixed points *)
  X <- Py.lift (Py.np_concatenate (tr_points fiber_result)) ;;
  let a := map alpha_of X in
  fixed_index <- Py.lift (mark_candidates local_abs_min a) ;;
  let fixed_index := expand_neighbors fixed_index in
  (* Set up within-fiber Newton-Raphson step computation *)
  let terminate' :=
    match terminate with
    | None => fun _ : FiberTrace D => false
    | Some t => t
    end in
  let refine_terminate :=
    fun trace => is_fixed (v_of (tr_x trace)) f ef || terminate' trace in
  (* Refine each candidate root *)
  let X := Py.select X fixed_index in
  lists <- refine_candidates c' refine_terminate X [] [] ;;
  let '(refinement_results, fixed_points) := lists in
  (* Return output *)
  fixed_points_array <- Py.lift (Py.np_concatenate fixed_points) ;;
  Py.ret {| Fiber_trace := fiber_result;
            Fixed_points := fixed_points_array;
            Refinements := refinement_results;
            Fixed_index := Py.flatnonzero fixed_index |}.

End Call.

End FiberSolver.

(* ================================================================= *)
(** ** [local_solver] *)

(** The returned dictionary. *)
Record LocalSolution : Type := mkLocalSolution {
  Seeds : list vec;
  Updates : list nat;
  Optima : list vec
}.

Section LocalSolver.

Variables World QG Hess : Type.

(** [time.clock()], [sampler()] and [np.random.randint(n)] read and change
    the world; [minimize qg H v0] is the [x] field of the result of
    [so.minimize(qg, v0, method='trust-ncg', jac=True, hess=H)]. *)
Variable clock : Py.M World NP.float.
Variable sampler : Py.M World vec.
Variable randint : nat -> Py.M World nat.
Variable minimize : QG -> Hess -> vec -> vec.

Variable f : vec -> vec.
Variables (qg : QG) (H : Hess).
Variable stop_time : option NP.float.
Variable max_repeats : option nat.
Variable max_updates : nat.

(** [for u in range(num_updates): v = v + f(v)] *)
Fixpoint iterate_updates (num_updates : nat) (v : vec) : vec :=
  match num_updates with
  | 0 => v
  | S n => iterate_updates n (Py.map2 NP.add v (f v))
  end.

(** [stop_time is not None and time.clock() >= stop_time] *)
Definition stop_time_reached : Py.M World bool :=
  match stop_time with
  | None => Py.ret false
  | Some t => now <- clock ;; Py.ret (NP.ge now t)
  end.

(** [max_repeats is not None and repeat >= max_repeats] *)
Definition max_repeats_reached (repeat : nat) : bool :=
  match max_repeats with
  | None => false
  | Some m => m <=? repeat
  end.

(** Lines 47-66: [for repeat in it.count()], which has no bound of its own;
    [fuel] bounds the number of iterations of the model. *)
Fixpoint local_solver_loop (fuel repeat : nat)
    (seeds : list vec) (updates : list nat) (optima : list vec)
  : Py.M World (list vec * list nat * list vec) :=
  match fuel with
  | 0 => Py.lift Py.NoFuel
  | S fuel' =>
      (* Check termination criteria *)
      timed_out <- stop_time_reached ;;
      if timed_out then Py.ret (seeds, updates, optima)
      else if max_repeats_reached repeat then Py.ret (seeds, updates, optima)
      else
        (* get random initial seed anywhere in range *)
        v <- sampler ;;
        let seeds := seeds ++ [v] in
        (* iterate trajectory a random number of steps *)
        num_updates <- randint (max_updates + 1) ;;
        let v := iterate_updates num_updates v in
        let updates := updates ++ [num_updates] in
        (* run minimization *)
        let optimum := minimize qg H v in
        let optima := optima ++ [optimum] in
        local_solver_loop fuel' (S repeat) seeds updates optima
  end.

Definition local_solver (fuel : nat) : Py.M World LocalSolution :=
  start <- clock ;;
  lists <- local_solver_loop fuel 0 [] [] [] ;;
  let '(seeds, updates, optima) := lists in
  (* Format output *)
  seeds_array <- Py.lift (Py.np_concatenate seeds) ;;
  optima_array <- Py.lift (Py.np_concatenate optima) ;;
  Py.ret {| Seeds := seeds_array; Updates := updates; Optima := optima_array |}.

End LocalSolver.

(* ================================================================= *)
(** ** Deduplication *)

Module Dedup.

Section Points.

(** Modelled from the spec: [fx.get_connected_components] and
    [fx.get_unique_points] live in [fixed_points.py], which is not among the
    sources.  Section 4.4: points [p], [q] of the set [V] are adjacent if the
    equivalence predicate holds of them, evaluated in both directions; the
    connected components of that graph are found by breadth-first traversal
    and labelled with distinct integers; one representative is selected from
    each component, here the first encountered. *)
Variable point : Type.
Variable E : point -> point -> bool.

Definition adjacent (V : list point) (p q : nat) : bool :=
  match nth_error V p, nth_error V q with
  | Some u, Some w => E u w || E w u
  | _, _ => false
  end.

(** One round of the traversal: a point is visited if it was, or if it is
    adjacent to a visited one. *)
Definition bfs_round (V : list point) (visited : list bool) : list bool :=
  map (fun q =>
         nth q visited false
         || existsb (fun p => nth p visited false && adjacent V p q)
                    (seq 0 (length V)))
      (seq 0 (length V)).

(** The component of point [p]: after as many rounds as there are points
    nothing new can be reached. *)
Definition component_of (V : list point) (p : nat) : list bool :=
  Nat.iter (length V) (bfs_round V) (map (Nat.eqb p) (seq 0 (length V))).

Definition connected (V : list point) (p q : nat) : bool :=
  nth q (component_of V p) false.

(** The label of a point: the index of the first point of its component. *)
Definition label (V : list point) (q : nat) : nat :=
  match find (fun p => connected V p q) (seq 0 (length V)) with
  | Some p => p
  | None => q
  end.

Definition get_connected_components (V : list point) : list nat :=
  map (label V) (seq 0 (length V)).

(** The first point of every component, in the order of the input. *)
Definition get_unique_points (V : list point) : list point :=
  Py.select V
    (Py.map2 Nat.eqb (get_connected_components V) (seq 0 (length V))).

(** Section 3: two points are in one component when a chain of pairwise
    relations connects them. *)
Inductive chain (V : list point) : nat -> nat -> Prop :=
| chain_here (p : nat) : p < length V -> chain V p p
| chain_next (p q r : nat) :
    chain V p q -> adjacent V q r = true -> chain V p r.

(** The number of visited points. *)
Definition visited_count (visited : list bool) : nat :=
  length (filter (fun b : bool => b) visited).

End Points.

End Dedup.

(* ================================================================= *)
(** ** The fiber tracer *)

Module Tracer.

Section Tracer.

Variables World D Jac Log : Type.

(** Modelled from the spec: [traverse_fiber] lives in [traversal.py], which
    is not among the sources.  Section 4.1: initialization by the corrector
    alone, tangent establishment, then the step loop (a)-(g), repeated until
    a stopping condition fires; a point is appended to [points] in step (f),
    and the stopping conditions are evaluated in step (g) in the order
    predicate, deadline, step count.  The numerical kernels (vector norm,
    one Newton-Raphson update of the augmented residual, null vector of the
    augmented Jacobian by singular value decomposition) and the sources of
    randomness and time are parameters. *)
Variable clock : Py.M World NP.float.
Variable random_state : Py.M World vec.
Variable random_direction : Py.M World vec.
Variable norm : vec -> NP.float.
Variable newton_update :
  (vec -> vec) -> (vec -> Jac) -> vec -> AugPoint -> AugPoint.
Variable null_vector : (vec -> Jac) -> vec -> AugPoint -> AugPoint.
Variable solve_tolerance : NP.float.
Variable default_solve_iterations : nat.

Definition dot (u w : vec) : NP.float :=
  fold_right NP.add (NP.Fin 0) (Py.map2 NP.mul u w).

Definition aug_dot (a b : AugPoint) : NP.float :=
  NP.add (dot (v_of a) (v_of b)) (NP.mul (alpha_of a) (alpha_of b)).

(** The augmented residual [f(v) - alpha*c]. *)
Definition residual (f : vec -> vec) (c : vec) (x : AugPoint) : vec :=
  Py.map2 (fun fv ci => NP.add fv (NP.neg (NP.mul (alpha_of x) ci)))
          (f (v_of x)) c.

(** The least-squares [alpha] for a fixed [v]. *)
Definition initial_alpha (f : vec -> vec) (c v : vec) : NP.float :=
  NP.div (dot c (f v)) (dot c c).

(** Newton-Raphson on the augmented residual, until the residual norm is
    below the tolerance or the iteration cap is hit; the residual history is
    recorded. *)
Fixpoint corrector (f : vec -> vec) (Df : vec -> Jac) (c : vec)
    (iterations : nat) (x : AugPoint) (residuals : list NP.float)
  : AugPoint * list NP.float :=
  let r := norm (residual f c x) in
  let residuals := residuals ++ [r] in
  if NP.lt r solve_tolerance then (x, residuals)
  else
    match iterations with
    | 0 => (x, residuals)
    | S n => corrector f Df c n (newton_update f Df c x) residuals
    end.

(** The tangent at [x], sign-aligned with the previous tangent. *)
Definition compute_tangent (Df : vec -> Jac) (c : vec) (x : AugPoint)
    (z_prev : option AugPoint) : AugPoint :=
  let z := null_vector Df c x in
  match z_prev with
  | None => z
  | Some zp =>
      if NP.lt (aug_dot z zp) (NP.Fin 0)
      then mkAug (map NP.neg (v_of z)) (NP.neg (alpha_of z))
      else z
  end.

(** Step (b): clamp to [[-max_step_size, max_step_size]]. *)
Definition clamp (max_step_size : option NP.float) (amount : NP.float)
  : NP.float :=
  match max_step_size with
  | None => amount
  | Some cap =>
      if NP.lt cap amount then cap
      else if NP.lt amount (NP.neg cap) then NP.neg cap
      else amount
  end.

(** Step (c): [x + amount * z]. *)
Definition predictor (x z : AugPoint) (amount : NP.float) : AugPoint :=
  mkAug (Py.map2 NP.add (v_of x) (map (NP.mul amount) (v_of z)))
        (NP.add (alpha_of x) (NP.mul amount (alpha_of z))).

Definition solve_iterations (args : TraverseArgs D Jac Log) : nat :=
  match arg_max_solve_iterations args with
  | Some n => n
  | None => default_solve_iterations
  end.

Definition deadline_reached (args : TraverseArgs D Jac Log)
  : Py.M World bool :=
  match arg_stop_time args with
  | None => Py.ret false
  | Some t => now <- clock ;; Py.ret (NP.ge now t)
  end.

Definition max_steps_reached (args : TraverseArgs D Jac Log) (steps : nat)
  : bool :=
  match arg_max_traverse_steps args with
  | None => false
  | Some k => k <=? steps
  end.

Definition user_terminate (args : TraverseArgs D Jac Log)
    (trace : FiberTrace D) : bool :=
  match arg_terminate args with
  | None => false
  | Some t => t trace
  end.

Definition with_status (s : Status) (trace : FiberTrace D) : FiberTrace D :=
  {| tr_points := tr_points trace;
     tr_c := tr_c trace;
     tr_x := tr_x trace;
     tr_z := tr_z trace;
     tr_status := s;
     tr_step_data := tr_step_data trace;
     tr_residuals := tr_residuals trace |}.

(** The step loop; [steps] counts the steps taken so far, and [fuel] bounds
    the iterations of the model, the loop having no bound of its own when no
    budget is given. *)
Fixpoint step_loop (fuel : nat) (args : TraverseArgs D Jac Log)
    (steps : nat) (trace : FiberTrace D) : Py.M World (FiberTrace D) :=
  match fuel with
  | 0 => Py.lift Py.NoFuel
  | S fuel' =>
      (* a *)
      let '(step_amount, step_data) := arg_compute_step_amount args trace in
      (* b *)
      let step_amount := clamp (arg_max_step_size args) step_amount in
      (* c *)
      let x_pred := predictor (tr_x trace) (tr_z trace) step_amount in
      (* d *)
      let '(x_new, residuals) :=
        corrector (arg_f args) (arg_Df args) (tr_c trace)
                  (solve_iterations args) x_pred [] in
      (* e *)
      let z_new :=
        compute_tangent (arg_Df args) (tr_c trace) x_new (Some (tr_z trace)) in
      (* f *)
      let trace :=
        {| tr_points := tr_points trace ++ [x_new];
           tr_c := tr_c trace;
           tr_x := x_new;
           tr_z := z_new;
           tr_status := Running;
           tr_step_data := tr_step_data trace ++ [step_data];
           tr_residuals := tr_residuals trace ++ [residuals] |} in
      let steps := S steps in
      (* g *)
      if user_terminate args trace then Py.ret (with_status Terminated trace)
      else
        timed_out <- deadline_reached args ;;
        if timed_out then Py.ret (with_status TimedOut trace)
        else if max_steps_reached args steps
             then Py.ret (with_status MaxSteps trace)
             else step_loop fuel' args steps trace
  end.

Definition traverse_fiber (fuel : nat) (args : TraverseArgs D Jac Log)
  : Py.M World (FiberTrace D) :=
  v <- match arg_v args with
       | Some v => Py.ret v
       | None => random_state
       end ;;
  c <- match arg_c args with
       | Some c => Py.ret c
       | None => random_direction
       end ;;
  (* 1. initialization *)
  let x0 := mkAug v (initial_alpha (arg_f args) c v) in
  let '(x, residuals) :=
    corrector (arg_f args) (arg_Df args) c (solve_iterations args) x0 [] in
  (* 2. tangent establishment *)
  let z := compute_tangent (arg_Df args) c x (arg_z args) in
  (* 3. step loop *)
  step_loop fuel args 0
    {| tr_points := [];
       tr_c := c;
       tr_x := x;
       tr_z := z;
       tr_status := Running;
       tr_step_data := [];
       tr_residuals := [residuals] |}.

End Tracer.

End Tracer.

(* ================================================================= *)
(** ** Concrete inputs *)

Module Examples.

(** A trace of a fiber in the plane ([N = 1]) whose current point and
    tangent have the given last coordinates. *)
Definition trace_at (x_alpha z_alpha : NP.float) : FiberTrace unit :=
  {| tr_points := [mkAug [NP.Fin 0] x_alpha];
     tr_c := [NP.Fin 1];
     tr_x := mkAug [NP.Fin 0] x_alpha;
     tr_z := mkAug [NP.Fin 0] z_alpha;
     tr_status := Running;
     tr_step_data := [];
     tr_residuals := [] |}.

(** The trace at [x_alpha = -1] with tangent coordinate [z_alpha = 2], and
    the one with [z_alpha = 1]. *)
Definition descending_trace : FiberTrace unit :=
  trace_at (NP.Fin (-1)) (NP.Fin 2).

Definition unit_trace : FiberTrace unit :=
  trace_at (NP.Fin (-1)) (NP.Fin 1).

(** A step-size controller that always answers [s]. *)
Definition constant_step (s : NP.float) : controller unit :=
  fun _ => (s, Opaque tt).

(** An alpha sequence with a sign change and an interior local minimum of
    the magnitude. *)
Definition alphas : list NP.float :=
  [NP.Fin 3; NP.Fin 1; NP.Fin 2; NP.Fin 4; NP.Fin (-1); NP.Fin (-2)].

(** The system [f(v) = v] on the line, whose fiber in direction [c] is
    [v = alpha * c]: the corrector can solve it exactly, and the tangent is
    [(c, 1)]. *)
Definition identity_f (v : vec) : vec := v.

Definition tolerance (v : vec) : vec := map (fun _ => NP.Fin (1 # 1000)) v.

Definition jacobian (v : vec) : unit := tt.

Definition l1_norm (v : vec) : NP.float :=
  fold_right NP.add (NP.Fin 0) (map NP.fabs v).

Definition exact_solve (f : vec -> vec) (Df : vec -> unit) (c : vec)
    (x : AugPoint) : AugPoint :=
  mkAug (map (NP.mul (alpha_of x)) c) (alpha_of x).

Definition line_tangent (Df : vec -> unit) (c : vec) (x : AugPoint)
  : AugPoint :=
  mkAug c (NP.Fin 1).

(** A clock that advances by one at every reading, the world being the
    number of readings so far. *)
Definition tick : Py.M nat NP.float :=
  fun n => (Py.Ok (NP.Fin (inject_Z (Z.of_nat n))), S n).

Definition fixed_seed : Py.M nat vec := fun n => (Py.Ok [NP.Fin 1], n).

Definition line_tracer
  : TraverseArgs unit unit unit -> Py.M nat (FiberTrace unit) :=
  Tracer.traverse_fiber tick fixed_seed fixed_seed l1_norm exact_solve
    line_tangent (NP.Fin (1 # 1000000)) 8 40.

(** The arguments of a trace of nine unit steps from [v = -5]. *)
Definition line_args : TraverseArgs unit unit unit :=
  {| arg_f := identity_f;
     arg_Df := jacobian;
     arg_ef := tolerance;
     arg_compute_step_amount := constant_step (NP.Fin 1);
     arg_v := Some [NP.Fin (-5)];
     arg_c := Some [NP.Fin 1];
     arg_z := None;
     arg_N := None;
     arg_terminate := None;
     arg_logfile := None;
     arg_stop_time := None;
     arg_max_traverse_steps := Some 9;
     arg_max_step_size := None;
     arg_max_solve_iterations := None |}.

Definition line_solver (within_fiber : bool)
  : Py.M nat (Solution unit) :=
  fiber_solver line_tracer identity_f tolerance jacobian
    (constant_step (NP.Fin 1)) (Some [NP.Fin (-5)]) (Some [NP.Fin 1])
    None None None None None (Some 9) None None true within_fiber.

(** Natural numbers at distance at most one are duplicates; the relation
    is not transitive. *)
Definition near (a b : nat) : bool := Nat.max a b - Nat.min a b <=? 1.

(** A local solver whose sampler and optimizer are trivial. *)
Definition sample_origin : Py.M nat vec := fun n => (Py.Ok [NP.Fin 0], n).

Definition no_updates (n : nat) : Py.M nat nat := fun w => (Py.Ok 0, w).

Definition keep (qg H : unit) (v : vec) : vec := v.

End Examples.

(* ================================================================= *)
(** ** The marking rules as a predicate, and further inputs *)

(** Lines 133-138 read as a predicate on an index [j] of the alpha sequence
    [a]: [j] is an endpoint, or the sign changes between [j] and [j+1], or
    local minima are extracted and [|a[j]|] is at most the magnitude at both
    neighbours. *)
Definition premarked (local_abs_min : bool) (a : list NP.float) (j : nat)
  : Prop :=
  j = 0
  \/ j = length a - 1
  \/ (j + 1 < length a
      /\ NP.ne (NP.sign (nth j a NP.NaN))
               (NP.sign (nth (j + 1) a NP.NaN)) = true)
  \/ (local_abs_min = true
      /\ 1 <= j /\ j + 1 < length a
      /\ NP.le (NP.fabs (nth j a NP.NaN))
               (NP.fabs (nth (j + 1) a NP.NaN)) = true
      /\ NP.le (NP.fabs (nth j a NP.NaN))
               (NP.fabs (nth (j - 1) a NP.NaN)) = true).

Module Cases.

Definition empty_trace : FiberTrace unit :=
  {| tr_points := [];
     tr_c := [NP.Fin 1];
     tr_x := mkAug [NP.Fin 0] (NP.Fin 0);
     tr_z := mkAug [NP.Fin 0] (NP.Fin 1);
     tr_status := Terminated;
     tr_step_data := [];
     tr_residuals := [] |}.

(** A tracer that returns a trace without points. *)
Definition empty_tracer
  : TraverseArgs unit unit unit -> Py.M nat (FiberTrace unit) :=
  fun _ w => (Py.Ok empty_trace, S w).

(** A tracer that traces the line, but returns no point when it is given a
    termination predicate, as the refinements are. *)
Definition pointless_refiner
  : TraverseArgs unit unit unit -> Py.M nat (FiberTrace unit) :=
  fun args w =>
    match arg_terminate args with
    | Some _ => (Py.Ok empty_trace, S w)
    | None => Examples.line_tracer args w
    end.

(** An alpha sequence that stays at zero over five points. *)
Definition plateau : list NP.float :=
  [NP.Fin 1; NP.Fin 0; NP.Fin 0; NP.Fin 0; NP.Fin 0; NP.Fin 0; NP.Fin 1].

(** An alpha sequence that decreases in magnitude without changing sign. *)
Definition approach : list NP.float :=
  [NP.Fin 7; NP.Fin 6; NP.Fin 5; NP.Fin 4; NP.Fin 3; NP.Fin 2; NP.Fin 1].

(** A generator for [np.random.randint] that counts up modulo the bound,
    the world being the number of draws so far; as numpy does, it refuses a
    bound of zero. *)
Definition counting_randint (bound : nat) : Py.M nat nat :=
  fun w =>
    match bound with
    | 0 => (Py.Raise Py.ValueError, w)
    | S _ => (Py.Ok (w mod bound), S w)
    end.

(** A sampler whose samples are the number of draws so far. *)
Definition counting_sampler : Py.M nat vec :=
  fun w => (Py.Ok [NP.Fin (inject_Z (Z.of_nat w))], S w).

(** The dynamics [f(v) = 1], under which an update adds one. *)
Definition add_one (v : vec) : vec := map (fun _ => NP.Fin 1) v.

(** The line example with the extraction options and the step budget left
    open. *)
Definition line_solver_with (local_abs_min within_fiber : bool)
    (steps : nat) : Py.M nat (Solution unit) :=
  fiber_solver Examples.line_tracer Examples.identity_f Examples.tolerance
    Examples.jacobian (Examples.constant_step (NP.Fin 1))
    (Some [NP.Fin (-5)]) (Some [NP.Fin 1])
    None None None None None (Some steps) None None
    local_abs_min within_fiber.

(** The same call over a tracer other than the line tracer. *)
Definition solver_over
    (tracer : TraverseArgs unit unit unit -> Py.M nat (FiberTrace unit))
    (within_fiber : bool) : Py.M nat (Solution unit) :=
  fiber_solver tracer Examples.identity_f Examples.tolerance
    Examples.jacobian (Examples.constant_step (NP.Fin 1))
    (Some [NP.Fin (-5)]) (Some [NP.Fin 1])
    None None None None None (Some 9) None None true within_fiber.

(** A local solver over the counting sampler and generator, without a
    deadline. *)
Definition counting_solver (max_repeats : option nat)
    (max_updates fuel : nat) : Py.M nat LocalSolution :=
  local_solver Examples.tick counting_sampler counting_randint Examples.keep
    add_one tt tt None max_repeats max_updates fuel.

End Cases.

(* ================================================================= *)
(** * Properties *)

Unset Implicit Arguments.

(** ** Slices and element-wise operations *)

Section SliceFacts.

Context {A : Type}.

Lemma length_slice (lo back : nat) (l : list A) :
  length (Py.slice lo back l) = length l - back - lo.
Proof.
  unfold Py.slice. rewrite length_firstn, length_skipn. lia.
Qed.

Lemma nth_slice (lo back i : nat) (l : list A) (d : A) :
  i < length l - back - lo ->
  nth i (Py.slice lo back l) d = nth (lo + i) l d.
Proof.
  intros Hi. unfold Py.slice.
  rewrite nth_firstn.
  destruct (Nat.ltb_spec i (length l - back - lo)) as [_ | Hge]; [| lia].
  now rewrite nth_skipn.
Qed.

Lemma length_assign (lo back : nat) (m new : list A) :
  length new = length m - back - lo ->
  length (Py.assign lo back m new) = length m.
Proof.
  intros Hn. unfold Py.assign.
  rewrite !length_app, length_firstn, length_skipn. lia.
Qed.

Lemma nth_assign (lo back i : nat) (m new : list A) (d : A) :
  length new = length m - back - lo ->
  nth i (Py.assign lo back m new) d =
  if (lo <=? i) && (i <? length m - back)
  then nth (i - lo) new d
  else nth i m d.
Proof.
  intros Hn. unfold Py.assign.
  set (start := Nat.min lo (length m)).
  set (stop := Nat.max start (length m - back)).
  assert (Hstart : length (firstn start m) = start)
    by (rewrite length_firstn; subst start; lia).
  destruct (Nat.leb_spec lo i) as [Hlo | Hlo];
    destruct (Nat.ltb_spec i (length m - back)) as [Hhi | Hhi]; simpl.
  - rewrite app_nth2 by lia. rewrite Hstart.
    rewrite app_nth1 by (subst start; lia).
    f_equal. subst start. lia.
  - destruct (Nat.lt_ge_cases i (length m)) as [Hin | Hout].
    + rewrite app_nth2 by lia. rewrite Hstart.
      rewrite app_nth2 by (subst start; lia).
      rewrite nth_skipn. f_equal. subst stop start. lia.
    + rewrite (nth_overflow m) by lia.
      apply nth_overflow.
      rewrite !length_app, length_firstn, length_skipn. lia.
  - rewrite app_nth1 by (rewrite Hstart; subst start; lia).
    rewrite nth_firstn.
    destruct (Nat.ltb_spec i start) as [_ | Hge]; [reflexivity |].
    subst start. lia.
  - destruct (Nat.lt_ge_cases i (length m)) as [Hin | Hout].
    + rewrite app_nth1 by (rewrite Hstart; subst start; lia).
      rewrite nth_firstn.
      destruct (Nat.ltb_spec i start) as [_ | Hge]; [reflexivity |].
      subst start. lia.
    + rewrite (nth_overflow m) by lia.
      apply nth_overflow.
      rewrite !length_app, length_firstn, length_skipn. lia.
Qed.

End SliceFacts.

Lemma length_map2 {A B C} (f : A -> B -> C) (l1 : list A) (l2 : list B) :
  length (Py.map2 f l1 l2) = Nat.min (length l1) (length l2).
Proof.
  unfold Py.map2. now rewrite length_map, length_combine.
Qed.

Lemma nth_map2 {A B C} (f : A -> B -> C) (l1 : list A) (l2 : list B)
    (i : nat) (d1 : A) (d2 : B) (d : C) :
  i < length l1 -> i < length l2 ->
  nth i (Py.map2 f l1 l2) d = f (nth i l1 d1) (nth i l2 d2).
Proof.
  revert l2 i. unfold Py.map2.
  induction l1 as [| a l1 IH]; intros [| b l2] [| i] H1 H2;
    simpl in *; try lia; [reflexivity |].
  apply IH; lia.
Qed.

(** ** The candidate mask *)

(** [m[:-1] = e(m[:-1], r)] for an operand [r] as long as [m[:-1]]. *)
Lemma nth_assign_init (g : bool -> bool -> bool) (m r : list bool) (i : nat) :
  length r = length m - 1 ->
  nth i (Py.assign 0 1 m (Py.map2 g (Py.slice 0 1 m) r)) false =
  if i <? length m - 1 then g (nth i m false) (nth i r false)
  else nth i m false.
Proof.
  intros Hr.
  rewrite nth_assign
    by (rewrite length_map2, length_slice; lia).
  simpl. destruct (Nat.ltb_spec i (length m - 1)) as [Hi | Hi]; [| reflexivity].
  rewrite Nat.sub_0_r.
  rewrite (nth_map2 g _ _ _ false false) by (rewrite ?length_slice; lia).
  now rewrite nth_slice by lia.
Qed.

Lemma length_assign_init (g : bool -> bool -> bool) (m r : list bool) :
  length r = length m - 1 ->
  length (Py.assign 0 1 m (Py.map2 g (Py.slice 0 1 m) r)) = length m.
Proof.
  intros Hr. apply length_assign.
  rewrite length_map2, length_slice. lia.
Qed.

Lemma length_expand_neighbors (m : list bool) :
  length (expand_neighbors m) = length m.
Proof.
  unfold expand_neighbors.
  rewrite length_assign;
    rewrite ?length_map2, ?length_slice, ?length_assign_init;
    rewrite ?length_slice; lia.
Qed.

Lemma nth_expand_neighbors (m : list bool) (i : nat) :
  i < length m ->
  nth i (expand_neighbors m) false =
  nth i m false
  || ((1 <=? i) && nth (i - 1) m false)
  || ((S i <? length m) && nth (S i) m false).
Proof.
  intros Hi. unfold expand_neighbors.
  set (m1 := Py.assign 0 1 m (Py.map2 orb (Py.slice 0 1 m) (Py.slice 1 0 m))).
  assert (Hlen : length m1 = length m)
    by (apply length_assign_init; rewrite length_slice; lia).
  assert (Hm1 : forall j, j < length m ->
            nth j m1 false =
            if j <? length m - 1 then nth j m false || nth (S j) m false
            else nth j m false).
  { intros j Hj. subst m1.
    rewrite nth_assign_init by (rewrite length_slice; lia).
    destruct (Nat.ltb_spec j (length m - 1)); [| reflexivity].
    now rewrite nth_slice by lia. }
  rewrite nth_assign
    by (rewrite length_map2, !length_slice; lia).
  rewrite Hlen, Nat.sub_0_r.
  destruct (Nat.leb_spec 1 i) as [H1 | H1]; simpl.
  - destruct (Nat.ltb_spec i (length m)) as [_ | ?]; [| lia].
    rewrite (nth_map2 orb _ _ _ false false)
      by (rewrite length_slice; lia).
    rewrite !nth_slice by lia.
    replace (1 + (i - 1)) with i by lia.
    replace (0 + (i - 1)) with (i - 1) by lia.
    rewrite !Hm1 by lia.
    replace (S (i - 1)) with i by lia.
    destruct (Nat.ltb_spec (i - 1) (length m - 1)) as [_ | ?]; [| lia].
    destruct (Nat.ltb_spec i (length m - 1));
      destruct (Nat.ltb_spec (S i) (length m)); try lia;
      destruct (nth i m false), (nth (i - 1) m false),
        (nth (S i) m false); reflexivity.
  - rewrite Hm1 by lia.
    destruct (Nat.ltb_spec i (length m - 1));
      destruct (Nat.ltb_spec (S i) (length m)); try lia;
      destruct (nth i m false), (nth (S i) m false); reflexivity.
Qed.

Lemma set_endpoints_spec (m : list bool) :
  1 <= length m ->
  exists m', Py.set_endpoints m = Py.Ok m'
    /\ length m' = length m
    /\ forall i, i < length m ->
         nth i m' false = (i =? 0) || (i =? length m - 1) || nth i m false.
Proof.
  destruct m as [| b rest]; [simpl; lia |]. intros _.
  unfold Py.set_endpoints. cbn [length].
  eexists. split; [reflexivity |].
  assert (Hlen : length (removelast (true :: rest)) = length rest).
  { rewrite removelast_firstn_len, length_firstn. cbn [length]. lia. }
  split.
  - rewrite length_app, Hlen. cbn [length]. lia.
  - intros i Hi. replace (S (length rest) - 1) with (length rest) by lia.
    destruct (Nat.eqb_spec i (length rest)) as [-> | Hne].
    + rewrite app_nth2 by lia. rewrite Hlen, Nat.sub_diag.
      cbn [nth]. now rewrite orb_true_r.
    + rewrite app_nth1 by lia.
      rewrite removelast_firstn_len, nth_firstn. cbn [length pred].
      destruct (Nat.ltb_spec i (length rest)) as [_ | ?]; [| lia].
      destruct i as [| i]; reflexivity.
Qed.

Lemma nth_repeat_false (n i : nat) : nth i (repeat false n) false = false.
Proof.
  revert i. induction n as [| n IH]; intros [| i]; simpl; auto.
Qed.

Lemma nth_map_sign (l : list NP.float) (i : nat) :
  nth i (map NP.sign l) NP.NaN = NP.sign (nth i l NP.NaN).
Proof. exact (map_nth NP.sign l NP.NaN i). Qed.

Lemma nth_map_fabs (l : list NP.float) (i : nat) :
  nth i (map NP.fabs l) NP.NaN = NP.fabs (nth i l NP.NaN).
Proof. exact (map_nth NP.fabs l NP.NaN i). Qed.

(** The mask of lines 131-138, index by index. *)
Lemma mark_candidates_spec (local_abs_min : bool) (a : list NP.float) :
  1 <= length a ->
  exists m, mark_candidates local_abs_min a = Py.Ok m
    /\ length m = length a
    /\ forall i, i < length a ->
         nth i m false =
         (i =? 0) || (i =? length a - 1)
         || ((i <? length a - 1)
             && NP.ne (NP.sign (nth i a NP.NaN))
                      (NP.sign (nth (S i) a NP.NaN)))
         || (local_abs_min && (1 <=? i) && (i <? length a - 1)
             && NP.le (NP.fabs (nth i a NP.NaN))
                      (NP.fabs (nth (S i) a NP.NaN))
             && NP.le (NP.fabs (nth i a NP.NaN))
                      (NP.fabs (nth (i - 1) a NP.NaN))).
Proof.
  intros HM. unfold mark_candidates.
  destruct (set_endpoints_spec (repeat false (length a)))
    as (m0 & -> & Hlen0 & Hm0); [now rewrite repeat_length |].
  rewrite repeat_length in Hlen0, Hm0.
  set (signs := Py.map2 NP.ne (map NP.sign (Py.slice 0 1 a))
                               (map NP.sign (Py.slice 1 0 a))).
  assert (Hsl : length signs = length m0 - 1).
  { subst signs. rewrite length_map2, !length_map, !length_slice. lia. }
  set (m1 := Py.assign 0 1 m0 (Py.map2 orb (Py.slice 0 1 m0) signs)).
  assert (Hlen1 : length m1 = length a).
  { subst m1. rewrite length_assign_init; assumption. }
  assert (Hm1 : forall i, i < length a ->
            nth i m1 false =
            (i =? 0) || (i =? length a - 1)
            || ((i <? length a - 1)
                && NP.ne (NP.sign (nth i a NP.NaN))
                         (NP.sign (nth (S i) a NP.NaN)))).
  { intros i Hi. subst m1. rewrite nth_assign_init by assumption.
    rewrite Hlen0, Hm0 by assumption. rewrite nth_repeat_false, orb_false_r.
    destruct (Nat.ltb_spec i (length a - 1)) as [Hlt | Hge];
      [| now rewrite orb_false_r].
    simpl. f_equal. subst signs.
    rewrite (nth_map2 NP.ne _ _ _ NP.NaN NP.NaN)
      by (rewrite length_map, length_slice; lia).
    rewrite !nth_map_sign, !nth_slice by lia.
    reflexivity. }
  destruct local_abs_min.
  - set (minima := Py.map2 andb _ _).
    assert (Hml : length minima = length m1 - 1 - 1).
    { subst minima.
      rewrite !length_map2, !length_map, !length_slice. lia. }
    eexists. split; [reflexivity |].
    split.
    + rewrite length_assign; [assumption |].
      rewrite length_map2, length_slice. lia.
    + intros i Hi.
      rewrite nth_assign by (rewrite length_map2, length_slice; lia).
      rewrite Hlen1. cbn [andb].
      destruct (1 <=? i) eqn:E1; destruct (i <? length a - 1) eqn:E2;
        cbn [andb]; rewrite ?Hm1 by assumption; rewrite ?E2;
        rewrite ?andb_false_r, ?orb_false_r; try reflexivity.
      apply Nat.leb_le in E1. pose proof E2 as Hlt. apply Nat.ltb_lt in Hlt.
      rewrite (nth_map2 orb _ _ _ false false)
        by (rewrite ?length_slice; lia).
      rewrite nth_slice by lia.
      replace (1 + (i - 1)) with i by lia.
      rewrite Hm1 by assumption. rewrite E2. cbn [andb].
      f_equal. subst minima.
      rewrite (nth_map2 andb _ _ _ false false)
        by (rewrite length_map2, !length_map, !length_slice; lia).
      rewrite !(nth_map2 NP.le _ _ _ NP.NaN NP.NaN)
        by (rewrite length_map, length_slice; lia).
      rewrite !nth_map_fabs, !nth_slice by lia.
      replace (1 + (i - 1)) with i by lia.
      replace (2 + (i - 1)) with (S i) by lia.
      replace (0 + (i - 1)) with (i - 1) by lia.
      reflexivity.
  - eexists. split; [reflexivity |]. split; [assumption |].
    intros i Hi. rewrite Hm1 by assumption. cbn [andb].
    now rewrite orb_false_r.
Qed.

(** C2: for an alpha sequence [a] of length [M >= 2], the mask before the
    expansion to neighbours marks index [i] exactly when [i] is an endpoint
    ([0] or [M-1]), or [i <= M-2] and [sign(a[i]) != sign(a[i+1])], or
    local-minimum extraction is enabled, [1 <= i <= M-2],
    [|a[i]| <= |a[i+1]|] and [|a[i]| <= |a[i-1]|]. *)
Theorem mark_candidates_marks_exactly
    (local_abs_min : bool) (a : list NP.float) (i : nat) :
  2 <= length a ->
  i < length a ->
  exists m,
    mark_candidates local_abs_min a = Py.Ok m
    /\ length m = length a
    /\ (nth i m false = true <->
        i = 0
        \/ i = length a - 1
        \/ (i <= length a - 2
            /\ NP.ne (NP.sign (nth i a NP.NaN))
                     (NP.sign (nth (i + 1) a NP.NaN)) = true)
        \/ (local_abs_min = true
            /\ 1 <= i <= length a - 2
            /\ NP.le (NP.fabs (nth i a NP.NaN))
                     (NP.fabs (nth (i + 1) a NP.NaN)) = true
            /\ NP.le (NP.fabs (nth i a NP.NaN))
                     (NP.fabs (nth (i - 1) a NP.NaN)) = true)).
Proof.
  intros HM Hi.
  destruct (mark_candidates_spec local_abs_min a) as (m & Hm & Hlen & Hnth);
    [lia |].
  exists m. split; [assumption |]. split; [assumption |].
  rewrite (Hnth i Hi). replace (i + 1) with (S i) by lia.
  rewrite !orb_true_iff, !andb_true_iff.
  rewrite Nat.eqb_eq, Nat.eqb_eq, Nat.ltb_lt, Nat.leb_le.
  split.
  - intros [[[H | H] | [H1 H2]] | [[[[H1 H2] H3] H4] H5]].
    + now left.
    + right. now left.
    + right. right. left. split; [lia | assumption].
    + right. right. right. repeat split; try assumption; lia.
  - intros [H | [H | [[H1 H2] | (H1 & [H2 H3] & H4 & H5)]]].
    + left. left. now left.
    + left. left. now right.
    + left. right. split; [lia | assumption].
    + right. repeat split; try assumption; lia.
Qed.

(** C3: the two passes of lines 140-141 are a dilation by one neighbour:
    the final mask marks [i] exactly when the mask before the expansion
    marks [i-1], [i] or [i+1] (those that exist); in particular the two
    neighbours of an index marked before are marked after. *)
Theorem expand_neighbors_is_dilation (m : list bool) (i : nat) :
  i < length m ->
  length (expand_neighbors m) = length m
  /\ (nth i (expand_neighbors m) false = true <->
      nth i m false = true
      \/ (1 <= i /\ nth (i - 1) m false = true)
      \/ (i + 1 < length m /\ nth (i + 1) m false = true))
  /\ (nth i m false = true ->
      (1 <= i -> nth (i - 1) (expand_neighbors m) false = true)
      /\ (i + 1 < length m -> nth (i + 1) (expand_neighbors m) false = true)).
Proof.
  intros Hi. split; [apply length_expand_neighbors |]. split.
  - rewrite nth_expand_neighbors by assumption.
    replace (i + 1) with (S i) by lia.
    rewrite !orb_true_iff, !andb_true_iff, Nat.leb_le, Nat.ltb_lt.
    tauto.
  - intros Hm. split; intros Hr.
    + rewrite nth_expand_neighbors by lia.
      replace (S (i - 1)) with i by lia. rewrite Hm.
      destruct (Nat.ltb_spec i (length m)) as [_ | ?]; [| lia].
      now rewrite !orb_true_r.
    + rewrite nth_expand_neighbors by lia.
      replace (i + 1 - 1) with i by lia. rewrite Hm.
      destruct (Nat.leb_spec 1 (i + 1)) as [_ | ?]; [| lia].
      cbn [andb]. now rewrite orb_true_r.
Qed.

Lemma mark_candidates_marks_exactly_example :
  (2 <= length Examples.alphas /\ 1 < length Examples.alphas)
  /\ exists m,
       mark_candidates true Examples.alphas = Py.Ok m
       /\ length m = length Examples.alphas
       /\ (nth 1 m false = true <->
           1 = 0
           \/ 1 = length Examples.alphas - 1
           \/ (1 <= length Examples.alphas - 2
               /\ NP.ne (NP.sign (nth 1 Examples.alphas NP.NaN))
                        (NP.sign (nth (1 + 1) Examples.alphas NP.NaN)) = true)
           \/ (true = true
               /\ 1 <= 1 <= length Examples.alphas - 2
               /\ NP.le (NP.fabs (nth 1 Examples.alphas NP.NaN))
                        (NP.fabs (nth (1 + 1) Examples.alphas NP.NaN)) = true
               /\ NP.le (NP.fabs (nth 1 Examples.alphas NP.NaN))
                        (NP.fabs (nth (1 - 1) Examples.alphas NP.NaN)) = true)).
Proof.
  split; [simpl; lia |].
  apply (mark_candidates_marks_exactly true Examples.alphas 1); simpl; lia.
Defined.

Lemma expand_neighbors_is_dilation_example :
  1 < length [false; false; true; false; false]
  /\ nth 1 (expand_neighbors [false; false; true; false; false]) false = true.
Proof.
  split; [simpl; lia |].
  assert (Hi : 1 < length [false; false; true; false; false])
    by (simpl; lia).
  destruct (expand_neighbors_is_dilation
              [false; false; true; false; false] 1 Hi) as (_ & Hiff & _).
  apply Hiff. right. right. split; [simpl; lia | reflexivity].
Defined.

Example mark_candidates_alphas :
  mark_candidates true Examples.alphas
  = Py.Ok [true; true; false; true; true; true]
  /\ mark_candidates false Examples.alphas
     = Py.Ok [true; false; false; true; false; true].
Proof. split; reflexivity. Qed.

Example mark_candidates_single_point :
  mark_candidates true [NP.Fin 1] = Py.Ok [true]
  /\ mark_candidates true [] = Py.Raise Py.IndexError.
Proof. split; reflexivity. Qed.

Example expand_neighbors_interior :
  expand_neighbors [false; false; false; true; false; false; false]
  = [false; false; true; true; true; false; false].
Proof. reflexivity. Qed.

Example expand_neighbors_ends :
  expand_neighbors [true; false; false; false; true]
  = [true; true; false; true; true].
Proof. reflexivity. Qed.

(** ** The within-fiber step controller *)

Section RationalFacts.

Local Open Scope Q_scope.

Lemma Qltb_lt (a b : Q) : NP.Qltb a b = true <-> a < b.
Proof.
  unfold NP.Qltb. rewrite negb_true_iff. split.
  - intros H. apply Qnot_le_lt. intros Hle.
    apply Qle_bool_iff in Hle. congruence.
  - intros H. destruct (Qle_bool b a) eqn:E; [| reflexivity].
    apply Qle_bool_iff in E. lra.
Qed.

Lemma Qsign_cases (q : Q) :
  (q < 0 /\ NP.Qsign q = -1)
  \/ (q == 0 /\ NP.Qsign q = 0)
  \/ (0 < q /\ NP.Qsign q = 1).
Proof.
  unfold NP.Qsign, Qlt, Qeq. destruct q as [n d]. simpl.
  destruct n; simpl; [right; left | right; right | left];
    split; try reflexivity; lia.
Qed.

Lemma Qeq_bool_false (q : Q) : ~ q == 0 -> Qeq_bool q 0 = false.
Proof.
  intros H. destruct (Qeq_bool q 0) eqn:E; [| reflexivity].
  apply Qeq_bool_eq in E. contradiction.
Qed.

Lemma blend_le_fiber (r fs : Q) : Qabs (NP.blend r fs) <= Qabs fs.
Proof.
  unfold NP.blend. rewrite Qabs_Qmult.
  assert (Hs : 0 <= Qabs (NP.Qsign r) <= 1).
  { destruct (Qsign_cases r) as [[_ ->] | [[_ ->] | [_ ->]]];
      cbn; split; discriminate. }
  assert (Hm : Qabs (if NP.Qltb fs (Qabs r) then fs else Qabs r) <= Qabs fs).
  { destruct (NP.Qltb fs (Qabs r)) eqn:E; [lra |].
    assert (Hle : Qabs r <= fs).
    { destruct (Qlt_le_dec fs (Qabs r)) as [Hlt | Hle]; [| exact Hle].
      apply Qltb_lt in Hlt. congruence. }
    pose proof (Qabs_nonneg r).
    rewrite (Qabs_pos (Qabs r)) by assumption.
    rewrite (Qabs_pos fs) by lra. exact Hle. }
  pose proof (Qabs_nonneg (if NP.Qltb fs (Qabs r) then fs else Qabs r)).
  pose proof (Qabs_nonneg fs).
  nra.
Qed.

Lemma blend_nonneg_fiber (r fs : Q) :
  0 <= fs ->
  NP.blend r fs == NP.Qsign r * Qmin (Qabs r) (Qabs fs)
  /\ Qabs (NP.blend r fs) == Qmin (Qabs r) (Qabs fs)
  /\ (0 < fs -> NP.Qsign (NP.blend r fs) == NP.Qsign r).
Proof.
  intros Hfs. unfold NP.blend.
  rewrite (Qabs_pos fs Hfs).
  pose proof (Qabs_nonneg r) as Hr.
  assert (Hmin : (if NP.Qltb fs (Qabs r) then fs else Qabs r)
                 == Qmin (Qabs r) fs).
  { destruct (NP.Qltb fs (Qabs r)) eqn:E.
    - apply Qltb_lt in E. rewrite Q.min_r by lra. reflexivity.
    - rewrite Q.min_l; [reflexivity |].
      destruct (Qlt_le_dec fs (Qabs r)) as [Hlt | Hle]; [| exact Hle].
      apply Qltb_lt in Hlt. congruence. }
  set (m := if NP.Qltb fs (Qabs r) then fs else Qabs r) in *.
  assert (Hm0 : 0 <= Qmin (Qabs r) fs) by (apply Q.min_glb; assumption).
  split; [now rewrite Hmin |]. split.
  - rewrite Qabs_Qmult, Hmin. rewrite (Qabs_pos _ Hm0).
    destruct (Qsign_cases r) as [[H ->] | [[H ->] | [H ->]]].
    + change (Qabs (-1)) with 1. lra.
    + change (Qabs 0) with 0.
      assert (Qabs r == 0) by (rewrite H; reflexivity).
      rewrite Q.min_l by lra. lra.
    + change (Qabs 1) with 1. lra.
  - intros Hpos.
    destruct (Qsign_cases r) as [[H Hs] | [[H Hs] | [H Hs]]]; rewrite Hs.
    + assert (Hm : 0 < m).
      { rewrite Hmin. apply Q.min_glb_lt; [| assumption].
        rewrite Qabs_neg by lra. lra. }
      destruct (Qsign_cases (-1 * m)) as [[_ ->] | [[H' _] | [H' _]]];
        [reflexivity | lra | lra].
    + destruct (Qsign_cases (0 * m)) as [[H' _] | [[_ ->] | [H' _]]];
        [lra | reflexivity | lra].
    + assert (Hm : 0 < m).
      { rewrite Hmin. apply Q.min_glb_lt; [| assumption].
        rewrite Qabs_pos by lra. lra. }
      destruct (Qsign_cases (1 * m)) as [[H' _] | [[H' _] | [_ ->]]];
        [lra | lra | reflexivity].
Qed.

End RationalFacts.

Section RefineStep.

Local Open Scope Q_scope.

Variable D : Type.
Variable compute_step_amount : controller D.

(** The recorded Newton step is the unguarded quotient, whatever the
    trace. *)
Lemma refine_step_data (trace : FiberTrace D) :
  snd (compute_refine_step_amount compute_step_amount trace) =
  RefineData
    (NP.div (NP.neg (alpha_of (tr_x trace))) (alpha_of (tr_z trace)))
    (fst (compute_step_amount trace)) (snd (compute_step_amount trace)).
Proof.
  unfold compute_refine_step_amount.
  now destruct (compute_step_amount trace).
Qed.

Lemma refine_step_amount_finite (trace : FiberTrace D) (xa za fs : Q)
    (d : step_data D) :
  alpha_of (tr_x trace) = NP.Fin xa ->
  alpha_of (tr_z trace) = NP.Fin za ->
  ~ za == 0 ->
  compute_step_amount trace = (NP.Fin fs, d) ->
  compute_refine_step_amount compute_step_amount trace =
  (NP.Fin (NP.blend (- xa / za) fs),
   RefineData (NP.Fin (- xa / za)) (NP.Fin fs) d).
Proof.
  intros Hx Hz Hza Hc. unfold compute_refine_step_amount.
  rewrite Hx, Hz, Hc. cbn [NP.neg NP.div].
  rewrite (Qeq_bool_false za Hza).
  cbn [NP.sign NP.fabs]. unfold NP.pymin, NP.blend. cbn [NP.lt].
  now destruct (NP.Qltb fs (Qabs (- xa / za))).
Qed.

(** C1, as the code has it: for finite operands and a nonzero last
    coordinate of the tangent the returned step is never larger in
    magnitude than the step of the fiber controller; when that step is
    nonnegative, the returned step is the sign of the Newton step
    [-x_alpha/z_alpha] times the smaller of the two magnitudes, so that its
    magnitude is that minimum, and its sign is the sign of the Newton step
    when the fiber step is positive. *)
Theorem refine_step_blends_with_fiber_step
    (trace : FiberTrace D) (xa za fs : Q) (d : step_data D) :
  alpha_of (tr_x trace) = NP.Fin xa ->
  alpha_of (tr_z trace) = NP.Fin za ->
  ~ za == 0 ->
  compute_step_amount trace = (NP.Fin fs, d) ->
  exists s,
    fst (compute_refine_step_amount compute_step_amount trace) = NP.Fin s
    /\ Qabs s <= Qabs fs
    /\ (0 <= fs ->
        s == NP.Qsign (- xa / za) * Qmin (Qabs (- xa / za)) (Qabs fs)
        /\ Qabs s == Qmin (Qabs (- xa / za)) (Qabs fs)
        /\ (0 < fs -> NP.Qsign s == NP.Qsign (- xa / za))).
Proof.
  intros Hx Hz Hza Hc.
  rewrite (refine_step_amount_finite trace xa za fs d Hx Hz Hza Hc).
  exists (NP.blend (- xa / za) fs). split; [reflexivity |]. split.
  - apply blend_le_fiber.
  - apply blend_nonneg_fiber.
Qed.

(** C8: the Newton step is the quotient [-x[-1,0] / z[-1,0]] with no guard.
    With a finite point and a finite fiber step, a nonzero last coordinate
    of the tangent gives a finite quotient and a finite returned step; a
    zero one gives a quotient that is not finite, and a returned step that
    is nan when the last coordinate of the point is zero as well. *)
Theorem refine_step_finite_when_tangent_nonzero
    (trace : FiberTrace D) (xa za fs : Q) (d : step_data D) :
  alpha_of (tr_x trace) = NP.Fin xa ->
  alpha_of (tr_z trace) = NP.Fin za ->
  compute_step_amount trace = (NP.Fin fs, d) ->
  snd (compute_refine_step_amount compute_step_amount trace) =
    RefineData (NP.div (NP.neg (NP.Fin xa)) (NP.Fin za)) (NP.Fin fs) d
  /\ (~ za == 0 ->
      NP.div (NP.neg (NP.Fin xa)) (NP.Fin za) = NP.Fin (- xa / za)
      /\ exists s,
           fst (compute_refine_step_amount compute_step_amount trace)
           = NP.Fin s)
  /\ (za == 0 ->
      NP.is_finite (NP.div (NP.neg (NP.Fin xa)) (NP.Fin za)) = false
      /\ (xa == 0 ->
          fst (compute_refine_step_amount compute_step_amount trace)
          = NP.NaN)).
Proof.
  intros Hx Hz Hc. split; [| split].
  - rewrite refine_step_data, Hx, Hz, Hc. reflexivity.
  - intros Hza.
    rewrite (refine_step_amount_finite trace xa za fs d Hx Hz Hza Hc).
    split.
    + cbn [NP.neg NP.div]. now rewrite (Qeq_bool_false za Hza).
    + eexists. reflexivity.
  - intros Hza.
    assert (Ez : Qeq_bool za 0 = true) by now apply Qeq_bool_iff.
    split.
    + cbn [NP.neg NP.div]. rewrite Ez.
      destruct (Qeq_bool (- xa) 0); [reflexivity |].
      now destruct (NP.Qltb 0 (- xa)).
    + intros Hxa.
      assert (Ex : Qeq_bool (- xa) 0 = true)
        by (apply Qeq_bool_iff; rewrite Hxa; reflexivity).
      unfold compute_refine_step_amount.
      rewrite Hx, Hz, Hc. cbn [NP.neg NP.div]. rewrite Ez, Ex.
      reflexivity.
Qed.

End RefineStep.

Lemma refine_step_blends_with_fiber_step_example :
  (alpha_of (tr_x Examples.descending_trace) = NP.Fin (-1)
   /\ alpha_of (tr_z Examples.descending_trace) = NP.Fin 2
   /\ ~ (2 == 0)%Q
   /\ Examples.constant_step (NP.Fin (1 # 4)) Examples.descending_trace
      = (NP.Fin (1 # 4), Opaque tt))
  /\ exists s,
       fst (compute_refine_step_amount
              (Examples.constant_step (NP.Fin (1 # 4)))
              Examples.descending_trace) = NP.Fin s
       /\ (Qabs s <= Qabs (1 # 4))%Q
       /\ ((0 <= 1 # 4)%Q ->
           (s == NP.Qsign (- -1 / 2) * Qmin (Qabs (- -1 / 2)) (Qabs (1 # 4)))%Q
           /\ (Qabs s == Qmin (Qabs (- -1 / 2)) (Qabs (1 # 4)))%Q
           /\ ((0 < 1 # 4)%Q ->
               (NP.Qsign s == NP.Qsign (- -1 / 2))%Q)).
Proof.
  assert (Hz : ~ (2 == 0)%Q) by discriminate.
  split; [repeat split; try reflexivity; exact Hz |].
  apply (refine_step_blends_with_fiber_step unit
           (Examples.constant_step (NP.Fin (1 # 4)))
           Examples.descending_trace (-1) 2 (1 # 4) (Opaque tt));
    [reflexivity | reflexivity | exact Hz | reflexivity].
Defined.

(** C1 as stated fails when the fiber controller answers a negative step:
    at [x_alpha = -1], [z_alpha = 1] the Newton step is [1]; with a fiber
    step of [-5] the returned step is [-5], of the opposite sign and of
    magnitude [5], not [min(1, 5)]. *)
Lemma refine_step_with_negative_fiber_step :
  exists s r : Q,
    NP.div (NP.neg (alpha_of (tr_x Examples.unit_trace)))
           (alpha_of (tr_z Examples.unit_trace)) = NP.Fin r
    /\ (r == 1)%Q
    /\ fst (Examples.constant_step (NP.Fin (-5)) Examples.unit_trace)
       = NP.Fin (-5)
    /\ fst (compute_refine_step_amount
              (Examples.constant_step (NP.Fin (-5))) Examples.unit_trace)
       = NP.Fin s
    /\ (s == -5)%Q
    /\ ~ (NP.Qsign s == NP.Qsign r)%Q
    /\ ~ (Qabs s == Qmin (Qabs r) (Qabs (-5)))%Q.
Proof.
  eexists. eexists.
  split; [reflexivity |]. split; [reflexivity |]. split; [reflexivity |].
  split; [reflexivity |]. split; [reflexivity |].
  split; vm_compute; discriminate.
Qed.

Lemma refine_step_finite_when_tangent_nonzero_example :
  (exists s,
     fst (compute_refine_step_amount
            (Examples.constant_step (NP.Fin (1 # 2)))
            (Examples.trace_at (NP.Fin 3) (NP.Fin 2))) = NP.Fin s)
  /\ NP.is_finite (NP.div (NP.neg (NP.Fin 0)) (NP.Fin 0)) = false
  /\ fst (compute_refine_step_amount
            (Examples.constant_step (NP.Fin (1 # 2)))
            (Examples.trace_at (NP.Fin 0) (NP.Fin 0))) = NP.NaN.
Proof.
  assert (Hnz : ~ (2 == 0)%Q) by discriminate.
  assert (Hz : (0 == 0)%Q) by reflexivity.
  destruct (refine_step_finite_when_tangent_nonzero unit
              (Examples.constant_step (NP.Fin (1 # 2)))
              (Examples.trace_at (NP.Fin 3) (NP.Fin 2)) 3 2 (1 # 2)
              (Opaque tt) eq_refl eq_refl eq_refl) as (_ & Hfin & _).
  destruct (refine_step_finite_when_tangent_nonzero unit
              (Examples.constant_step (NP.Fin (1 # 2)))
              (Examples.trace_at (NP.Fin 0) (NP.Fin 0)) 0 0 (1 # 2)
              (Opaque tt) eq_refl eq_refl eq_refl) as (_ & _ & Hzero).
  split; [exact (proj2 (Hfin Hnz)) |].
  split; [exact (proj1 (Hzero Hz)) | exact (proj2 (Hzero Hz) Hz)].
Defined.

(** At a zero last coordinate of the tangent the quotient is an infinity
    when [x_alpha] is not zero, and the returned step is then the fiber step
    with the sign of that infinity. *)
Example refine_step_at_zero_tangent :
  compute_refine_step_amount (Examples.constant_step (NP.Fin (1 # 2)))
    (Examples.trace_at (NP.Fin 1) (NP.Fin 0))
  = (NP.Fin (-1 # 2), RefineData NP.NInf (NP.Fin (1 # 2)) (Opaque tt)).
Proof. reflexivity. Qed.

Example refine_step_near_root :
  compute_refine_step_amount (Examples.constant_step (NP.Fin 1))
    (Examples.trace_at (NP.Fin (1 # 4)) (NP.Fin 1))
  = (NP.Fin (-1 # 4), RefineData (NP.Fin (-1 # 4)) (NP.Fin 1) (Opaque tt)).
Proof. reflexivity. Qed.

(** ** Running effectful code *)

Lemma bind_ok {World A B} (m : Py.M World A) (k : A -> Py.M World B)
    (w w' : World) (b : B) :
  Py.bind m k w = (Py.Ok b, w') ->
  exists a w1, m w = (Py.Ok a, w1) /\ k a w1 = (Py.Ok b, w').
Proof.
  unfold Py.bind. destruct (m w) as [[a | e |] w1]; intros H;
    try discriminate.
  now exists a, w1.
Qed.

Lemma lift_ok {World A} (r : Py.result A) (w w' : World) (a : A) :
  Py.lift r w = (Py.Ok a, w') -> r = Py.Ok a /\ w' = w.
Proof. unfold Py.lift. intros H. now inversion H. Qed.

Lemma ret_ok {World A} (a b : A) (w w' : World) :
  Py.ret a w = (Py.Ok b, w') -> b = a /\ w' = w.
Proof. unfold Py.ret. intros H. now inversion H. Qed.

Lemma np_concatenate_ok {A} (cols X : list A) :
  Py.np_concatenate cols = Py.Ok X -> X = cols /\ cols <> [].
Proof.
  destruct cols; simpl; intros H; [discriminate |].
  inversion H. split; [reflexivity | discriminate].
Qed.

(** ** Masks, selected columns and their indices *)

Lemma flatnonzero_from_In (mask : list bool) (i k : nat) :
  In k (Py.flatnonzero_from i mask) <->
  i <= k < i + length mask /\ nth (k - i) mask false = true.
Proof.
  revert i. induction mask as [| b mask IH]; intros i; simpl.
  - split; [tauto | lia].
  - assert (Hstep : In k (Py.flatnonzero_from (S i) mask) <->
              S i <= k < i + S (length mask)
              /\ nth (k - i) (b :: mask) false = true).
    { rewrite IH. split; intros [Hr Hn].
      - split; [lia |]. replace (k - i) with (S (k - S i)) by lia.
        exact Hn.
      - split; [lia |]. replace (k - i) with (S (k - S i)) in Hn by lia.
        exact Hn. }
    destruct b; simpl.
    + rewrite Hstep. split.
      * intros [<- | [Hr Hn]].
        -- rewrite Nat.sub_diag. split; [lia | reflexivity].
        -- split; [lia | exact Hn].
      * intros [Hr Hn]. destruct (Nat.eq_dec i k) as [-> | Hne];
          [now left | right]. split; [lia | exact Hn].
    + rewrite Hstep. split.
      * intros [Hr Hn]. split; [lia | exact Hn].
      * intros [Hr Hn]. destruct (Nat.eq_dec i k) as [-> | Hne].
        -- rewrite Nat.sub_diag in Hn. discriminate.
        -- split; [lia | exact Hn].
Qed.

Lemma flatnonzero_from_sorted (mask : list bool) (i : nat) :
  StronglySorted lt (Py.flatnonzero_from i mask).
Proof.
  revert i. induction mask as [| b mask IH]; intros i; simpl.
  - constructor.
  - destruct b; [| apply IH].
    constructor; [apply IH |].
    apply Forall_forall. intros k Hk.
    apply flatnonzero_from_In in Hk. lia.
Qed.

(** Column [k] of [X[:, mask]] is the column of [X] at the [k]-th set index
    of the mask. *)
Lemma select_flatnonzero_from {A} (X : list A) (mask : list bool) (i : nat) :
  length mask = length X ->
  map Some (Py.select X mask) =
  map (fun k => nth_error X (k - i)) (Py.flatnonzero_from i mask).
Proof.
  revert mask i. induction X as [| x X IH]; intros [| b mask] i Hlen;
    simpl in *; try discriminate; [reflexivity |].
  assert (Hrest : map Some (Py.select X mask) =
            map (fun k => nth_error (x :: X) (k - i))
                (Py.flatnonzero_from (S i) mask)).
  { rewrite (IH mask (S i)) by lia.
    apply map_ext_in. intros k Hk. apply flatnonzero_from_In in Hk.
    replace (k - i) with (S (k - S i)) by lia. reflexivity. }
  destruct b; simpl.
  - rewrite Nat.sub_diag. simpl. now f_equal.
  - exact Hrest.
Qed.

Lemma select_nth_error {A} (X : list A) (mask : list bool) (k i : nat) :
  length mask = length X ->
  nth_error (Py.flatnonzero mask) k = Some i ->
  exists p, nth_error X i = Some p /\ nth_error (Py.select X mask) k = Some p.
Proof.
  intros Hlen Hk.
  pose proof (select_flatnonzero_from X mask 0 Hlen) as Hsel.
  assert (Hin : In i (Py.flatnonzero mask)) by (eapply nth_error_In; eauto).
  apply flatnonzero_from_In in Hin.
  assert (Hk' : nth_error (map Some (Py.select X mask)) k
                = Some (nth_error X i)).
  { rewrite Hsel. unfold Py.flatnonzero in Hk.
    rewrite nth_error_map, Hk. simpl. now rewrite Nat.sub_0_r. }
  rewrite nth_error_map in Hk'.
  destruct (nth_error (Py.select X mask) k) as [p |]; simpl in Hk';
    [| discriminate].
  exists p. inversion Hk' as [Hp]. now split.
Qed.

Lemma length_select {A} (X : list A) (mask : list bool) :
  length mask = length X ->
  length (Py.select X mask) = length (Py.flatnonzero mask).
Proof.
  intros Hlen.
  pose proof (select_flatnonzero_from X mask 0 Hlen) as Hsel.
  apply (f_equal (@length _)) in Hsel.
  now rewrite !length_map in Hsel.
Qed.

(** ** The solver facade *)

Section FiberSolverFacts.

Variables World D Jac Log : Type.
Variable traverse_fiber :
  TraverseArgs D Jac Log -> Py.M World (FiberTrace D).
Variables (f : vec -> vec) (ef : vec -> vec) (Df : vec -> Jac).
Variable compute_step_amount : controller D.
Variables (v : option vec) (c : option vec) (z : option AugPoint)
          (N : option nat).
Variable terminate : option (FiberTrace D -> bool).
Variable logfile : option Log.
Variable stop_time : option NP.float.
Variable max_traverse_steps : option nat.
Variable max_step_size : option NP.float.
Variable max_solve_iterations : option nat.
Variable local_abs_min : bool.

Local Abbreviation refine :=
  (refine_candidates traverse_fiber f ef Df compute_step_amount logfile
     stop_time max_step_size max_solve_iterations).

Local Abbreviation solve :=
  (fiber_solver traverse_fiber f ef Df compute_step_amount v c z N terminate
     logfile stop_time max_traverse_steps max_step_size max_solve_iterations
     local_abs_min).

(** The arguments of the first, whole-fiber invocation of the tracer. *)
Local Abbreviation trace_args :=
  {| arg_f := f;
     arg_Df := Df;
     arg_ef := ef;
     arg_compute_step_amount := compute_step_amount;
     arg_v := v;
     arg_c := c;
     arg_z := z;
     arg_N := N;
     arg_terminate := terminate;
     arg_logfile := logfile;
     arg_stop_time := stop_time;
     arg_max_traverse_steps := max_traverse_steps;
     arg_max_step_size := max_step_size;
     arg_max_solve_iterations := max_solve_iterations |}.

Lemma refine_candidates_without (c' : vec) (rt : FiberTrace D -> bool)
    (X : list AugPoint) (rr : list (FiberTrace D)) (fp : list vec)
    (w : World) :
  refine false c' rt X rr fp w = (Py.Ok (rr, fp ++ map v_of X), w).
Proof.
  revert fp. induction X as [| Xi X IH]; intros fp; simpl.
  - now rewrite app_nil_r.
  - simpl in *. rewrite IH. now rewrite <- app_assoc.
Qed.


(** What a returning call went through. *)
Lemma fiber_solver_ok (within_fiber : bool) (w w' : World)
    (sol : Solution D) :
  solve within_fiber w = (Py.Ok sol, w') ->
  exists fr w1 m0 rr fp,
    traverse_fiber trace_args w = (Py.Ok fr, w1)
    /\ tr_points fr <> []
    /\ mark_candidates local_abs_min (map alpha_of (tr_points fr)) = Py.Ok m0
    /\ refine within_fiber (tr_c fr)
         (fun trace =>
            is_fixed (v_of (tr_x trace)) f ef
            || match terminate with
               | None => fun _ => false
               | Some t => t
               end trace)
         (Py.select (tr_points fr) (expand_neighbors m0)) [] [] w1
       = (Py.Ok (rr, fp), w')
    /\ fp <> []
    /\ sol = {| Fiber_trace := fr;
                Fixed_points := fp;
                Refinements := rr;
                Fixed_index := Py.flatnonzero (expand_neighbors m0) |}.
Proof.
  unfold fiber_solver. intros Hrun.
  apply bind_ok in Hrun. destruct Hrun as (fr & w1 & Hfr & Hrun).
  apply bind_ok in Hrun. destruct Hrun as (X & w2 & HX & Hrun).
  apply lift_ok in HX. destruct HX as [HX ->].
  apply np_concatenate_ok in HX. destruct HX as [-> Hne].
  apply bind_ok in Hrun. destruct Hrun as (m0 & w2 & Hm0 & Hrun).
  apply lift_ok in Hm0. destruct Hm0 as [Hm0 ->].
  apply bind_ok in Hrun. destruct Hrun as ([rr fp] & w2 & Hloop & Hrun).
  apply bind_ok in Hrun. destruct Hrun as (FP & w3 & HFP & Hrun).
  apply lift_ok in HFP. destruct HFP as [HFP ->].
  apply np_concatenate_ok in HFP. destruct HFP as [-> Hfp].
  apply ret_ok in Hrun. destruct Hrun as [-> ->].
  exists fr, w1, m0, rr, fp. repeat split; assumption.
Qed.

Lemma mask_length (points : list AugPoint) (m0 : list bool) :
  points <> [] ->
  mark_candidates local_abs_min (map alpha_of points) = Py.Ok m0 ->
  length (expand_neighbors m0) = length points
  /\ nth 0 (expand_neighbors m0) false = true.
Proof.
  intros Hne Hm0.
  assert (H1 : 1 <= length (map alpha_of points)).
  { rewrite length_map. destruct points; [contradiction | simpl; lia]. }
  destruct (mark_candidates_spec local_abs_min _ H1)
    as (m & Hm & Hlen & Hnth).
  rewrite Hm in Hm0. inversion Hm0; subst m0.
  split; [now rewrite length_expand_neighbors, Hlen, length_map |].
  rewrite nth_expand_neighbors by lia.
  rewrite (Hnth 0) by lia. reflexivity.
Qed.


(** The refinements run one after the other: the invocation for the
    [k]-th column starts in the world that the previous one left. *)
Lemma refine_candidates_chain (c' : vec) (rt : FiberTrace D -> bool)
    (X : list AugPoint) (rr rr' : list (FiberTrace D)) (fp fp' : list vec)
    (w w' : World) :
  refine true c' rt X rr fp w = (Py.Ok (rr', fp'), w') ->
  exists rs cols ws,
    rr' = rr ++ rs /\ fp' = fp ++ cols
    /\ length rs = length X /\ length cols = length X
    /\ length ws = length X
    /\ nth_error (w :: ws) (length X) = Some w'
    /\ forall k Xi, nth_error X k = Some Xi ->
         exists r q wa wb,
           nth_error rs k = Some r
           /\ nth_error cols k = Some (v_of q)
           /\ Py.last_item (tr_points r) = Py.Ok q
           /\ nth_error (w :: ws) k = Some wa
           /\ nth_error ws k = Some wb
           /\ traverse_fiber
                {| arg_f := f;
                   arg_Df := Df;
                   arg_ef := ef;
                   arg_compute_step_amount :=
                     compute_refine_step_amount compute_step_amount;
                   arg_v := Some (v_of Xi);
                   arg_c := Some c';
                   arg_z := None;
                   arg_N := None;
                   arg_terminate := Some rt;
                   arg_logfile := logfile;
                   arg_stop_time := stop_time;
                   arg_max_traverse_steps := Some 32;
                   arg_max_step_size := max_step_size;
                   arg_max_solve_iterations := max_solve_iterations |} wa
              = (Py.Ok r, wb).
Proof.
  revert rr fp w. induction X as [| Xi X IH]; intros rr fp w Hrun.
  - apply ret_ok in Hrun. destruct Hrun as [Heq ->]. inversion Heq.
    exists [], [], []. rewrite !app_nil_r. repeat split.
    intros [| k] Xi Hk; discriminate.
  - cbn [refine_candidates] in Hrun.
    apply bind_ok in Hrun. destruct Hrun as (r & w1 & Hr & Hrun).
    apply bind_ok in Hrun. destruct Hrun as (q & w2 & Hq & Hrun).
    apply lift_ok in Hq. destruct Hq as [Hq ->].
    destruct (IH _ _ _ Hrun)
      as (rs & cols & ws & -> & -> & Hlr & Hlc & Hlw & Hend & Hall).
    exists (r :: rs), (v_of q :: cols), (w1 :: ws).
    rewrite <- !app_assoc. cbn [app length].
    split; [reflexivity |]. split; [reflexivity |].
    split; [lia |]. split; [lia |]. split; [lia |].
    split; [exact Hend |].
    intros [| k] Xk Hk; cbn [nth_error] in Hk |- *.
    + inversion Hk; subst Xk. exists r, q, w, w1. now repeat split.
    + apply Hall. exact Hk.
Qed.

(** C4: with refinement within the fiber enabled, every candidate is refined.
    The candidates are the indices that the expanded mask of the trace
    marks, the first endpoint among them, so that there is at least one
    refinement; there is one refinement per marked index, in the order of
    the indices.  The refinement for a marked index is the result of
    invoking the tracer, in the world that the previous invocation left
    (the fiber trace for the first one), seeded at the [v]-component of the
    trace point at that index, with the refinement controller, the
    direction [c] of the original trace, a budget of 32 steps, and a
    termination predicate that holds exactly when the current point passes
    the acceptance test or the caller's predicate (always false by default)
    holds; the [v]-component of its last point is the column of
    ["Fixed points"].  The world after the call is the world after the last
    refinement. *)
Theorem refinement_reinvokes_tracer_per_candidate
    (w w' : World) (sol : Solution D) :
  solve true w = (Py.Ok sol, w') ->
  exists m0 w0 ws,
    traverse_fiber trace_args w = (Py.Ok (Fiber_trace sol), w0)
    /\ mark_candidates local_abs_min
         (map alpha_of (tr_points (Fiber_trace sol))) = Py.Ok m0
    /\ 1 <= length (tr_points (Fiber_trace sol))
    /\ nth 0 (expand_neighbors m0) false = true
    /\ (forall i, i < length (tr_points (Fiber_trace sol)) ->
                  nth i (expand_neighbors m0) false = true ->
                  exists k, nth_error (Fixed_index sol) k = Some i)
    /\ 1 <= length (Refinements sol)
    /\ length (Refinements sol) = length (Fixed_index sol)
    /\ length ws = length (Fixed_index sol)
    /\ nth_error (w0 :: ws) (length (Fixed_index sol)) = Some w'
    /\ forall k i, nth_error (Fixed_index sol) k = Some i ->
         nth i (expand_neighbors m0) false = true
         /\ exists p r q wa wb refine_terminate,
              nth_error (tr_points (Fiber_trace sol)) i = Some p
              /\ nth_error (Refinements sol) k = Some r
              /\ nth_error (w0 :: ws) k = Some wa
              /\ nth_error ws k = Some wb
              /\ traverse_fiber
                   {| arg_f := f;
                      arg_Df := Df;
                      arg_ef := ef;
                      arg_compute_step_amount :=
                        compute_refine_step_amount compute_step_amount;
                      arg_v := Some (v_of p);
                      arg_c := Some (tr_c (Fiber_trace sol));
                      arg_z := None;
                      arg_N := None;
                      arg_terminate := Some refine_terminate;
                      arg_logfile := logfile;
                      arg_stop_time := stop_time;
                      arg_max_traverse_steps := Some 32;
                      arg_max_step_size := max_step_size;
                      arg_max_solve_iterations := max_solve_iterations |} wa
                 = (Py.Ok r, wb)
              /\ (forall trace,
                    refine_terminate trace = true <->
                    is_fixed (v_of (tr_x trace)) f ef = true
                    \/ exists t, terminate = Some t /\ t trace = true)
              /\ Py.last_item (tr_points r) = Py.Ok q
              /\ nth_error (Fixed_points sol) k = Some (v_of q).
Proof.
  intros Hrun.
  destruct (fiber_solver_ok _ _ _ _ Hrun)
    as (fr & w1 & m0 & rr & fp & Hfr & Hne & Hm0 & Hloop & Hfp & ->).
  cbn [Fiber_trace Fixed_points Refinements Fixed_index].
  destruct (mask_length _ _ Hne Hm0) as [Hlen H0].
  destruct (refine_candidates_chain _ _ _ _ _ _ _ _ _ Hloop)
    as (rs & cols & ws & -> & -> & Hlr & Hlc & Hlw & Hend & Hall).
  cbn [app]. rewrite length_select in Hlr, Hlc, Hlw, Hend by assumption.
  assert (HIn : forall i, In i (Py.flatnonzero (expand_neighbors m0)) <->
                  i < length (tr_points fr)
                  /\ nth i (expand_neighbors m0) false = true).
  { intros i. unfold Py.flatnonzero. rewrite flatnonzero_from_In.
    rewrite Nat.sub_0_r, Hlen. simpl. split; intros [H1 H2];
      (split; [lia | assumption]). }
  assert (Hmarked : forall i, i < length (tr_points fr) ->
            nth i (expand_neighbors m0) false = true ->
            exists k, nth_error (Py.flatnonzero (expand_neighbors m0)) k
                      = Some i).
  { intros i Hi Hset. apply In_nth_error. apply HIn. now split. }
  assert (Hpts : 1 <= length (tr_points fr))
    by (destruct (tr_points fr); [contradiction | simpl; lia]).
  exists m0, w1, ws.
  split; [exact Hfr |]. split; [exact Hm0 |]. split; [exact Hpts |].
  split; [exact H0 |]. split; [exact Hmarked |]. split.
  { destruct (Hmarked 0 Hpts H0) as (k & Hk).
    assert (Hlt : k < length (Py.flatnonzero (expand_neighbors m0)))
      by (apply nth_error_Some; congruence).
    lia. }
  split; [exact Hlr |]. split; [exact Hlw |]. split; [exact Hend |].
  intros k i Hk.
  assert (Hi : In i (Py.flatnonzero (expand_neighbors m0)))
    by (eapply nth_error_In; eassumption).
  apply HIn in Hi. split; [apply Hi |].
  destruct (select_nth_error _ _ _ _ Hlen Hk) as (p & Hp & Hsel).
  destruct (Hall _ _ Hsel)
    as (r & q & wa & wb & Hr & Hc & Hq & Hwa & Hwb & Hcall).
  exists p, r, q, wa, wb. eexists.
  split; [exact Hp |]. split; [exact Hr |]. split; [exact Hwa |].
  split; [exact Hwb |]. split; [exact Hcall |].
  split; [| split; [exact Hq | exact Hc]].
  intros trace. cbv beta. rewrite orb_true_iff.
  destruct terminate as [t |].
  - split; intros [H | H]; [now left | right | now left | right].
    + now exists t.
    + destruct H as (t' & Ht' & H). now inversion Ht'; subst.
  - split; intros [H | H]; [now left | discriminate | now left |].
    destruct H as (t' & Ht' & _). discriminate.
Qed.

(** C10: without refinement within the fiber, the tracer is invoked for the
    fiber only, ["Refinements"] is empty and the columns of ["Fixed points"]
    are, unchanged, the [v]-components of the trace points at the marked
    indices. *)
Theorem no_refinement_without_within_fiber
    (w w' : World) (sol : Solution D) :
  solve false w = (Py.Ok sol, w') ->
  traverse_fiber trace_args w = (Py.Ok (Fiber_trace sol), w')
  /\ Refinements sol = []
  /\ length (Fixed_points sol) = length (Fixed_index sol)
  /\ forall k i, nth_error (Fixed_index sol) k = Some i ->
       exists p,
         nth_error (tr_points (Fiber_trace sol)) i = Some p
         /\ nth_error (Fixed_points sol) k = Some (v_of p).
Proof.
  intros Hrun.
  destruct (fiber_solver_ok _ _ _ _ Hrun)
    as (fr & w1 & m0 & rr & fp & Hfr & Hne & Hm0 & Hloop & Hfp & ->).
  cbn [Fiber_trace Fixed_points Refinements Fixed_index].
  destruct (mask_length _ _ Hne Hm0) as [Hlen _].
  rewrite refine_candidates_without in Hloop.
  inversion Hloop; subst. cbn [app].
  split; [assumption |]. split; [reflexivity |].
  split; [now rewrite length_map, length_select |].
  intros k i Hk.
  destruct (select_nth_error _ _ _ _ Hlen Hk) as (p & Hp & Hsel).
  exists p. split; [assumption |].
  rewrite nth_error_map, Hsel. reflexivity.
Qed.

(** The solver returns whenever every invocation of the tracer returns a
    trace with at least one point. *)
Lemma refine_candidates_returns (within_fiber : bool) (c' : vec)
    (rt : FiberTrace D -> bool) (X : list AugPoint) :
  (forall args w, exists trace w',
      traverse_fiber args w = (Py.Ok trace, w') /\ tr_points trace <> []) ->
  forall (rr : list (FiberTrace D)) (fp : list vec) (w : World),
  exists rr' fp' w',
    refine within_fiber c' rt X rr fp w = (Py.Ok (rr', fp'), w')
    /\ length fp' = length fp + length X.
Proof.
  intros Htrace. induction X as [| Xi X IH]; intros rr fp w.
  - exists rr, fp, w. split; [reflexivity | simpl; lia].
  - cbn [refine_candidates]. destruct within_fiber.
    + match goal with
      | |- context [traverse_fiber ?a] =>
          destruct (Htrace a w) as (r & w1 & Hr & Hne)
      end.
      unfold Py.bind at 1. rewrite Hr.
      destruct (tr_points r) as [| q0 qs] eqn:Hpts; [contradiction |].
      unfold Py.bind at 1, Py.lift at 1. cbn [Py.last_item].
      destruct (IH (rr ++ [r]) (fp ++ [v_of (last qs q0)]) w1)
        as (rr' & fp' & w' & Hrun & Hlen).
      exists rr', fp', w'. split; [exact Hrun |].
      rewrite Hlen, length_app. simpl. lia.
    + destruct (IH rr (fp ++ [v_of Xi]) w)
        as (rr' & fp' & w' & Hrun & Hlen).
      exists rr', fp', w'. split; [exact Hrun |].
      rewrite Hlen, length_app. simpl. lia.
Qed.

Lemma fiber_solver_returns (within_fiber : bool) (w : World) :
  (forall args w0, exists trace w',
      traverse_fiber args w0 = (Py.Ok trace, w') /\ tr_points trace <> []) ->
  exists sol w', solve within_fiber w = (Py.Ok sol, w').
Proof.
  intros Htrace. unfold fiber_solver.
  destruct (Htrace trace_args w) as (fr & w1 & Hfr & Hne).
  unfold Py.bind at 1. rewrite Hfr.
  unfold Py.bind at 1, Py.lift at 1.
  destruct (tr_points fr) as [| p0 ps] eqn:Hpts; [contradiction |].
  cbn [Py.np_concatenate].
  assert (Hne' : p0 :: ps <> []) by discriminate.
  assert (H1 : 1 <= length (map alpha_of (p0 :: ps))) by (simpl; lia).
  destruct (mark_candidates_spec local_abs_min _ H1) as (m0 & Hm0 & _).
  destruct (mask_length _ _ Hne' Hm0) as [Hlen H0].
  unfold Py.bind at 1, Py.lift at 1. rewrite Hm0.
  destruct (expand_neighbors m0) as [| b mask] eqn:Hmask; [discriminate |].
  simpl in H0. subst b. cbn [Py.select].
  match goal with
  | |- context [refine_candidates _ _ _ _ _ _ _ _ _ _ ?c' ?rt ?X [] []] =>
      destruct (refine_candidates_returns within_fiber c' rt X Htrace [] [] w1)
        as (rr & fp & w2 & Hrun & Hfp)
  end.
  unfold Py.bind at 1. rewrite Hrun.
  destruct fp as [| col fp]; [simpl in Hfp; lia |].
  eexists. eexists. reflexivity.
Qed.

End FiberSolverFacts.

(** ** The local solver *)

Section LocalSolverFacts.

Variables World QG Hess : Type.
Variable clock : Py.M World NP.float.
Variable sampler : Py.M World vec.
Variable randint : nat -> Py.M World nat.
Variable minimize : QG -> Hess -> vec -> vec.
Variable f : vec -> vec.
Variables (qg : QG) (H : Hess).
Variable stop_time : option NP.float.
Variable max_repeats : option nat.
Variable max_updates : nat.

Local Abbreviation solve :=
  (local_solver clock sampler randint minimize f qg H stop_time max_repeats
     max_updates).

Local Abbreviation loop :=
  (local_solver_loop clock sampler randint minimize f qg H stop_time
     max_repeats max_updates).

(** The loop breaks at once, with nothing appended, when a criterion holds
    at its first check. *)
Lemma local_solver_loop_breaks_at_once (fuel : nat) (w1 : World) :
  (forall w, exists t w', clock w = (Py.Ok t, w')) ->
  max_repeats = Some 0
  \/ (exists t now w2,
        stop_time = Some t
        /\ clock w1 = (Py.Ok now, w2) /\ NP.ge now t = true) ->
  exists w2, loop (S fuel) 0 [] [] [] w1 = (Py.Ok ([], [], []), w2).
Proof.
  intros Hclock Hstop. cbn [local_solver_loop].
  unfold stop_time_reached, max_repeats_reached.
  destruct Hstop as [-> | (t & now & w2 & -> & Hnow & Hge)].
  - destruct stop_time as [t |].
    + destruct (Hclock w1) as (now & w2 & Hnow).
      unfold Py.bind. rewrite Hnow. unfold Py.ret.
      exists w2. now destruct (NP.ge now t).
    + exists w1. reflexivity.
  - unfold Py.bind. rewrite Hnow. unfold Py.ret. rewrite Hge.
    now exists w2.
Qed.

(** C9: when the termination criteria hold before any sample is drawn
    ([max_repeats = 0], or the clock has reached [stop_time] at the first
    check), the solver raises the [ValueError] of [np.concatenate] on an
    empty list; it returns no dictionary. *)
Theorem local_solver_raises_without_samples
    (fuel : nat) (w : World) (start : NP.float) (w1 : World) :
  (forall w0, exists t w', clock w0 = (Py.Ok t, w')) ->
  clock w = (Py.Ok start, w1) ->
  max_repeats = Some 0
  \/ (exists t now w2,
        stop_time = Some t
        /\ clock w1 = (Py.Ok now, w2) /\ NP.ge now t = true) ->
  exists w', solve (S fuel) w = (Py.Raise Py.ValueError, w').
Proof.
  intros Hclock Hstart Hstop.
  destruct (local_solver_loop_breaks_at_once fuel w1 Hclock Hstop)
    as (w2 & Hloop).
  unfold local_solver, Py.bind at 1. rewrite Hstart.
  unfold Py.bind at 1. rewrite Hloop.
  exists w2. reflexivity.
Qed.

End LocalSolverFacts.

(** ** Deduplication *)

Lemma nth_tabulate {A} (g : nat -> A) (n q : nat) (d : A) :
  q < n -> nth q (map g (seq 0 n)) d = g q.
Proof.
  intros Hq.
  rewrite (nth_indep _ d (g 0)) by (rewrite length_map, length_seq; lia).
  rewrite map_nth, seq_nth by lia. reflexivity.
Qed.

Lemma find_seq_first (P : nat -> bool) (s n q : nat) :
  s <= q < s + n ->
  P q = true ->
  (forall p, s <= p < q -> P p = false) ->
  find P (seq s n) = Some q.
Proof.
  revert s. induction n as [| n IH]; intros s Hq HP Hbefore; [lia |].
  simpl. destruct (Nat.eq_dec s q) as [-> | Hne].
  - now rewrite HP.
  - rewrite (Hbefore s) by lia. apply IH; [lia | assumption |].
    intros p Hp. apply Hbefore. lia.
Qed.

Lemma find_seq_le (P : nat -> bool) (s n q : nat) :
  s <= q < s + n ->
  P q = true ->
  exists p, find P (seq s n) = Some p /\ s <= p <= q.
Proof.
  revert s. induction n as [| n IH]; intros s Hq HP; [lia |].
  simpl. destruct (P s) eqn:Hs.
  - exists s. split; [reflexivity | lia].
  - assert (s <> q) by congruence.
    destruct (IH (S s)) as (p & Hp & Hr); [lia | assumption |].
    exists p. split; [assumption | lia].
Qed.

Lemma sorted_nth_error_lt (l : list nat) (a b x y : nat) :
  StronglySorted lt l ->
  nth_error l a = Some x -> nth_error l b = Some y -> a < b -> x < y.
Proof.
  intros Hs. revert a b. induction Hs as [| h l Hs IH Hall];
    intros a b Ha Hb Hab.
  - destruct a; discriminate.
  - destruct b as [| b]; [lia |]. destruct a as [| a]; simpl in *.
    + inversion Ha; subst h. rewrite Forall_forall in Hall.
      apply Hall. eapply nth_error_In. eassumption.
    + apply (IH a b); [assumption | assumption | lia].
Qed.

Lemma select_nth_error_inv {A} (X : list A) (mask : list bool) (k : nat)
    (p : A) :
  length mask = length X ->
  nth_error (Py.select X mask) k = Some p ->
  exists i, nth_error (Py.flatnonzero mask) k = Some i
            /\ nth_error X i = Some p
            /\ nth i mask false = true.
Proof.
  intros Hlen Hk.
  pose proof (select_flatnonzero_from X mask 0 Hlen) as Hsel.
  apply (f_equal (fun l => nth_error l k)) in Hsel.
  rewrite !nth_error_map, Hk in Hsel. unfold Py.flatnonzero.
  destruct (nth_error (Py.flatnonzero_from 0 mask) k) as [i |] eqn:Hi;
    simpl in Hsel; [| discriminate].
  exists i. rewrite Nat.sub_0_r in Hsel. inversion Hsel as [Hp].
  split; [reflexivity |]. split; [now symmetry |].
  apply nth_error_In in Hi. apply flatnonzero_from_In in Hi.
  rewrite Nat.sub_0_r in Hi. apply Hi.
Qed.

Lemma select_all {A} (X : list A) (mask : list bool) :
  length mask = length X ->
  (forall i, i < length X -> nth i mask false = true) ->
  Py.select X mask = X.
Proof.
  revert mask. induction X as [| x X IH]; intros [| b mask] Hlen Hall;
    simpl in *; try discriminate; [reflexivity |].
  rewrite (Hall 0 ltac:(lia)). f_equal. apply IH; [lia |].
  intros i Hi. apply (Hall (S i)). lia.
Qed.

Section DedupFacts.

Variable point : Type.
Variable E : point -> point -> bool.

Local Abbreviation adjacent := (Dedup.adjacent E).
Local Abbreviation bfs_round := (Dedup.bfs_round E).
Local Abbreviation component_of := (Dedup.component_of E).
Local Abbreviation connected := (Dedup.connected E).
Local Abbreviation label := (Dedup.label E).
Local Abbreviation get_unique_points := (Dedup.get_unique_points E).

Lemma adjacent_sym (V : list point) (p q : nat) :
  adjacent V p q = adjacent V q p.
Proof.
  unfold Dedup.adjacent.
  destruct (nth_error V p), (nth_error V q); try reflexivity.
  apply orb_comm.
Qed.

Lemma adjacent_in_range (V : list point) (p q : nat) :
  adjacent V p q = true -> p < length V /\ q < length V.
Proof.
  unfold Dedup.adjacent. intros H.
  destruct (nth_error V p) eqn:Hp; [| discriminate].
  destruct (nth_error V q) eqn:Hq; [| discriminate].
  split; apply nth_error_Some; congruence.
Qed.

Lemma nth_bfs_round (V : list point) (visited : list bool) (q : nat) :
  q < length V ->
  nth q (bfs_round V visited) false =
  nth q visited false
  || existsb (fun p => nth p visited false && adjacent V p q)
             (seq 0 (length V)).
Proof.
  intros Hq. unfold Dedup.bfs_round.
  now rewrite (nth_tabulate _ _ _ false Hq).
Qed.

Lemma bfs_round_keeps (V : list point) (visited : list bool) (q : nat) :
  q < length V ->
  nth q visited false = true ->
  nth q (bfs_round V visited) false = true.
Proof.
  intros Hq Hv. rewrite nth_bfs_round by assumption. now rewrite Hv.
Qed.

Lemma bfs_round_reaches (V : list point) (visited : list bool) (p q : nat) :
  nth p visited false = true ->
  adjacent V p q = true ->
  nth q (bfs_round V visited) false = true.
Proof.
  intros Hv Hadj. destruct (adjacent_in_range V p q Hadj) as [Hp Hq].
  rewrite nth_bfs_round by assumption.
  apply orb_true_iff. right. apply existsb_exists.
  exists p. split; [apply in_seq; lia |]. now rewrite Hv, Hadj.
Qed.

Lemma iter_keeps_start (V : list point) (p k : nat) :
  p < length V ->
  nth p (Nat.iter k (bfs_round V) (map (Nat.eqb p) (seq 0 (length V))))
      false = true.
Proof.
  intros Hp. induction k as [| k IH]; simpl.
  - rewrite (nth_tabulate _ _ _ false Hp). apply Nat.eqb_refl.
  - now apply bfs_round_keeps.
Qed.

Lemma connected_refl (V : list point) (q : nat) :
  q < length V -> connected V q q = true.
Proof.
  intros Hq. unfold Dedup.connected, Dedup.component_of.
  now apply iter_keeps_start.
Qed.

Lemma adjacent_connected (V : list point) (p q : nat) :
  adjacent V p q = true -> connected V p q = true.
Proof.
  intros Hadj. destruct (adjacent_in_range V p q Hadj) as [Hp Hq].
  unfold Dedup.connected, Dedup.component_of.
  destruct (length V) as [| n] eqn:Hn; [lia |].
  cbn [Nat.iter nat_rect]. rewrite <- Hn in *.
  apply (bfs_round_reaches V _ p q); [| assumption].
  change (nat_rect (fun _ => list bool) ?x (fun _ => ?f) ?k)
    with (Nat.iter k f x).
  now apply iter_keeps_start.
Qed.

(** The first point of a component has no earlier point connected to it. *)
Lemma label_fixed (V : list point) (p q : nat) :
  p < q -> q < length V ->
  label V q = q -> connected V p q = false.
Proof.
  intros Hpq Hq Hlab. destruct (connected V p q) eqn:Hc; [| reflexivity].
  destruct (find_seq_le (fun p => connected V p q) 0 (length V) p)
    as (p' & Hfind & Hr); [lia | assumption |].
  unfold Dedup.label in Hlab. rewrite Hfind in Hlab. lia.
Qed.

(** In a set without adjacent distinct points every point is alone in its
    component. *)
Lemma bfs_round_isolated (V : list point) (p : nat) :
  (forall a b, a <> b -> adjacent V a b = false) ->
  bfs_round V (map (Nat.eqb p) (seq 0 (length V))) =
  map (Nat.eqb p) (seq 0 (length V)).
Proof.
  intros Hiso. unfold Dedup.bfs_round. apply map_ext_in.
  intros q Hq. apply in_seq in Hq.
  rewrite (nth_tabulate _ _ _ false) by lia.
  destruct (Nat.eqb_spec p q) as [-> | Hne]; [reflexivity |].
  simpl. apply not_true_is_false. intros Hex.
  apply existsb_exists in Hex. destruct Hex as (a & Ha & Hand).
  apply in_seq in Ha. rewrite (nth_tabulate _ _ _ false) in Hand by lia.
  apply andb_true_iff in Hand. destruct Hand as [Heq Hadj].
  apply Nat.eqb_eq in Heq. subst a.
  rewrite (Hiso p q Hne) in Hadj. discriminate.
Qed.

Lemma connected_isolated (V : list point) (p q : nat) :
  (forall a b, a <> b -> adjacent V a b = false) ->
  q < length V ->
  connected V p q = (p =? q).
Proof.
  intros Hiso Hq. unfold Dedup.connected, Dedup.component_of.
  assert (Hit : forall k,
            Nat.iter k (bfs_round V) (map (Nat.eqb p) (seq 0 (length V)))
            = map (Nat.eqb p) (seq 0 (length V))).
  { induction k as [| k IH]; simpl; [reflexivity |].
    change (nat_rect (fun _ => list bool) ?x (fun _ => ?f) ?k)
      with (Nat.iter k f x).
    rewrite IH. now apply bfs_round_isolated. }
  rewrite Hit. now rewrite (nth_tabulate _ _ _ false Hq).
Qed.

Lemma label_isolated (V : list point) (q : nat) :
  (forall a b, a <> b -> adjacent V a b = false) ->
  q < length V ->
  label V q = q.
Proof.
  intros Hiso Hq. unfold Dedup.label.
  rewrite (find_seq_first (fun p => connected V p q) 0 (length V) q);
    [reflexivity | lia | |].
  - rewrite connected_isolated by assumption. apply Nat.eqb_refl.
  - intros p Hp. rewrite connected_isolated by assumption.
    apply Nat.eqb_neq. lia.
Qed.

Lemma get_unique_points_isolated (V : list point) :
  (forall a b, a <> b -> adjacent V a b = false) ->
  get_unique_points V = V.
Proof.
  intros Hiso. unfold Dedup.get_unique_points, Dedup.get_connected_components.
  apply select_all.
  - rewrite length_map2, length_map, length_seq. lia.
  - intros i Hi.
    rewrite (nth_map2 Nat.eqb _ _ _ 0 0)
      by (rewrite ?length_map, length_seq; lia).
    rewrite (nth_tabulate _ _ _ 0 Hi), seq_nth by lia.
    rewrite label_isolated by assumption. apply Nat.eqb_refl.
Qed.

Lemma unique_mask_length (V : list point) :
  length (Py.map2 Nat.eqb (Dedup.get_connected_components E V)
                          (seq 0 (length V))) = length V.
Proof.
  unfold Dedup.get_connected_components.
  rewrite length_map2, length_map, length_seq. lia.
Qed.

Lemma unique_mask_set (V : list point) (i : nat) :
  i < length V ->
  nth i (Py.map2 Nat.eqb (Dedup.get_connected_components E V)
                         (seq 0 (length V))) false = true ->
  label V i = i.
Proof.
  intros Hi Hset. unfold Dedup.get_connected_components in Hset.
  rewrite (nth_map2 Nat.eqb _ _ _ 0 0) in Hset
    by (rewrite ?length_map, length_seq; lia).
  rewrite (nth_tabulate _ _ _ 0 Hi), seq_nth in Hset by lia.
  now apply Nat.eqb_eq.
Qed.

(** Two selected representatives come from different components. *)
Lemma representatives_not_adjacent (V : list point) (ia ib : nat) :
  ia < ib -> ib < length V ->
  label V ib = ib ->
  adjacent V ia ib = false.
Proof.
  intros Hlt Hib Hlab. destruct (adjacent V ia ib) eqn:Hadj; [| reflexivity].
  apply adjacent_connected in Hadj.
  rewrite (label_fixed V ia ib Hlt Hib Hlab) in Hadj. discriminate.
Qed.

Lemma unique_points_not_adjacent (V : list point) (a b : nat) :
  a <> b -> adjacent (get_unique_points V) a b = false.
Proof.
  intros Hab.
  destruct (adjacent (get_unique_points V) a b) eqn:Hadj; [| reflexivity].
  exfalso. unfold Dedup.adjacent in Hadj.
  destruct (nth_error (get_unique_points V) a) as [u |] eqn:Ha;
    [| discriminate].
  destruct (nth_error (get_unique_points V) b) as [x |] eqn:Hb;
    [| discriminate].
  unfold Dedup.get_unique_points in Ha, Hb.
  destruct (select_nth_error_inv V _ a u (unique_mask_length V) Ha)
    as (ia & Hia & Hu & Hma).
  destruct (select_nth_error_inv V _ b x (unique_mask_length V) Hb)
    as (ib & Hib & Hx & Hmb).
  assert (Hra : ia < length V) by (apply nth_error_Some; congruence).
  assert (Hrb : ib < length V) by (apply nth_error_Some; congruence).
  pose proof (flatnonzero_from_sorted
                (Py.map2 Nat.eqb (Dedup.get_connected_components E V)
                                 (seq 0 (length V))) 0) as Hsorted.
  destruct (Nat.lt_ge_cases a b) as [Hlt | Hge].
  - assert (Hi : ia < ib)
      by (apply (sorted_nth_error_lt _ a b ia ib Hsorted Hia Hib Hlt)).
    pose proof (representatives_not_adjacent V ia ib Hi Hrb
                  (unique_mask_set V ib Hrb Hmb)) as Hno.
    unfold Dedup.adjacent in Hno. rewrite Hu, Hx in Hno. congruence.
  - assert (Hlt : b < a) by lia.
    assert (Hi : ib < ia)
      by (apply (sorted_nth_error_lt _ b a ib ia Hsorted Hib Hia Hlt)).
    pose proof (representatives_not_adjacent V ib ia Hi Hra
                  (unique_mask_set V ia Hra Hma)) as Hno.
    unfold Dedup.adjacent in Hno. rewrite Hu, Hx in Hno.
    rewrite orb_comm in Hno. congruence.
Qed.

(** C7: deduplicating the output of a deduplication leaves it as it is;
    in particular the size after two applications is the size after one. *)
Theorem get_unique_points_idempotent_size (V : list point) :
  length (get_unique_points (get_unique_points V))
  = length (get_unique_points V)
  /\ get_unique_points (get_unique_points V) = get_unique_points V.
Proof.
  assert (Heq : get_unique_points (get_unique_points V)
                = get_unique_points V).
  { apply get_unique_points_isolated.
    intros a b Hab. now apply unique_points_not_adjacent. }
  split; [now rewrite Heq | exact Heq].
Qed.

(** *** The traversal computes the components

    The rounds of the traversal visit exactly the points that a chain of
    pairwise relations connects to the start, so that two points carry the
    same label exactly when such a chain connects them. *)

Local Abbreviation rounds V p k :=
  (Nat.iter k (bfs_round V) (map (Nat.eqb p) (seq 0 (length V)))).

Lemma length_rounds (V : list point) (p k : nat) :
  length (rounds V p k) = length V.
Proof.
  destruct k as [| k]; simpl.
  - now rewrite length_map, length_seq.
  - unfold Dedup.bfs_round. now rewrite length_map, length_seq.
Qed.

Lemma rounds_succ (V : list point) (p k : nat) :
  rounds V p (S k) = bfs_round V (rounds V p k).
Proof. reflexivity. Qed.

Lemma chain_in_range (V : list point) (p q : nat) :
  Dedup.chain E V p q -> p < length V /\ q < length V.
Proof.
  induction 1 as [p Hp | p q r _ [IHp _] Hadj]; [now split |].
  split; [assumption |]. now apply (adjacent_in_range V q r).
Qed.

Lemma chain_trans (V : list point) (p q r : nat) :
  Dedup.chain E V p q -> Dedup.chain E V q r -> Dedup.chain E V p r.
Proof.
  intros Hpq Hqr. induction Hqr as [q Hq | q r s _ IH Hadj]; [assumption |].
  eapply Dedup.chain_next; [apply IH; assumption | assumption].
Qed.

Lemma chain_sym (V : list point) (p q : nat) :
  Dedup.chain E V p q -> Dedup.chain E V q p.
Proof.
  induction 1 as [p Hp | p q r Hpq IH Hadj]; [now constructor |].
  destruct (adjacent_in_range V q r Hadj) as [_ Hr].
  apply (chain_trans V r q p); [| assumption].
  eapply Dedup.chain_next; [now constructor |].
  now rewrite adjacent_sym.
Qed.

Lemma rounds_sound (V : list point) (p k q : nat) :
  nth q (rounds V p k) false = true -> Dedup.chain E V p q.
Proof.
  revert q. induction k as [| k IH]; intros q Hq.
  - destruct (Nat.lt_ge_cases q (length V)) as [Hlt | Hge].
    + simpl in Hq. rewrite (nth_tabulate _ _ _ false Hlt) in Hq.
      apply Nat.eqb_eq in Hq. subst q. now constructor.
    + rewrite nth_overflow in Hq by (rewrite length_rounds; lia).
      discriminate.
  - destruct (Nat.lt_ge_cases q (length V)) as [Hlt | Hge].
    + rewrite rounds_succ, nth_bfs_round in Hq by assumption.
      apply orb_true_iff in Hq. destruct Hq as [Hq | Hq]; [now apply IH |].
      apply existsb_exists in Hq. destruct Hq as (a & _ & Ha).
      apply andb_true_iff in Ha. destruct Ha as [Ha Hadj].
      eapply Dedup.chain_next; [apply IH; eassumption | assumption].
    + rewrite nth_overflow in Hq by (rewrite length_rounds; lia).
      discriminate.
Qed.

Lemma rounds_grow (V : list point) (p k i : nat) :
  nth i (rounds V p k) false = true ->
  nth i (rounds V p (S k)) false = true.
Proof.
  intros Hi. destruct (Nat.lt_ge_cases i (length V)) as [Hlt | Hge].
  - rewrite rounds_succ. now apply bfs_round_keeps.
  - rewrite nth_overflow in Hi by (rewrite length_rounds; lia).
    discriminate.
Qed.

Lemma visited_count_grows (vis vis' : list bool) :
  length vis = length vis' ->
  (forall i, nth i vis false = true -> nth i vis' false = true) ->
  Dedup.visited_count vis <= Dedup.visited_count vis'
  /\ (Dedup.visited_count vis = Dedup.visited_count vis' -> vis = vis').
Proof.
  unfold Dedup.visited_count.
  revert vis'. induction vis as [| a vis IH]; intros [| b vis'] Hlen Hsub;
    simpl in Hlen; try discriminate; [now split |].
  destruct (IH vis') as [Hle Heq]; [lia | |].
  { intros i Hi. apply (Hsub (S i)). exact Hi. }
  pose proof (Hsub 0) as H0. simpl in H0.
  destruct a, b; simpl.
  - split; [lia |]. intros Hc. f_equal. apply Heq. lia.
  - specialize (H0 eq_refl). discriminate.
  - split; [lia |]. intros Hc. lia.
  - split; [lia |]. intros Hc. f_equal. now apply Heq.
Qed.

Lemma visited_count_pos (vis : list bool) (p : nat) :
  nth p vis false = true -> 1 <= Dedup.visited_count vis.
Proof.
  unfold Dedup.visited_count.
  revert p. induction vis as [| a vis IH]; intros [| p] Hp; simpl in *;
    try discriminate.
  - subst a. simpl. lia.
  - destruct a; simpl; [lia | now apply (IH p)].
Qed.

Lemma visited_count_le (vis : list bool) :
  Dedup.visited_count vis <= length vis.
Proof. unfold Dedup.visited_count. apply filter_length_le. Qed.

Lemma rounds_fixed_or_grown (V : list point) (p k : nat) :
  p < length V ->
  (exists j, j <= k /\ bfs_round V (rounds V p j) = rounds V p j)
  \/ k + 1 <= Dedup.visited_count (rounds V p k).
Proof.
  intros Hp. induction k as [| k IH].
  - right. apply (visited_count_pos _ p). now apply iter_keeps_start.
  - destruct IH as [(j & Hj & Hfix) | Hcount].
    + left. exists j. split; [lia | assumption].
    + destruct (list_eq_dec Bool.bool_dec (rounds V p k) (rounds V p (S k)))
        as [Heq | Hne].
      * left. exists k. split; [lia |]. now rewrite <- rounds_succ.
      * right.
        destruct (visited_count_grows (rounds V p k) (rounds V p (S k)))
          as [Hle Hsame].
        { now rewrite !length_rounds. }
        { intros i. apply rounds_grow. }
        destruct (Nat.eq_dec (Dedup.visited_count (rounds V p k))
                    (Dedup.visited_count (rounds V p (S k)))) as [Hc | Hc].
        -- contradiction (Hne (Hsame Hc)).
        -- lia.
Qed.

Lemma rounds_fixed_stay (V : list point) (p j k : nat) :
  bfs_round V (rounds V p j) = rounds V p j ->
  j <= k -> rounds V p k = rounds V p j.
Proof.
  intros Hfix Hjk. induction k as [| k IH].
  - now replace j with 0 by lia.
  - destruct (Nat.eq_dec j (S k)) as [-> | Hne]; [reflexivity |].
    rewrite rounds_succ, IH by lia. exact Hfix.
Qed.

(** After as many rounds as there are points nothing new is reached. *)
Lemma rounds_saturated (V : list point) (p : nat) :
  p < length V ->
  bfs_round V (component_of V p) = component_of V p.
Proof.
  intros Hp. unfold Dedup.component_of.
  destruct (rounds_fixed_or_grown V p (length V) Hp)
    as [(j & Hj & Hfix) | Hcount].
  - rewrite (rounds_fixed_stay V p j (length V) Hfix Hj). exact Hfix.
  - pose proof (visited_count_le (rounds V p (length V))) as Hle.
    rewrite length_rounds in Hle. lia.
Qed.

Lemma connected_iff_chain (V : list point) (p q : nat) :
  connected V p q = true <-> Dedup.chain E V p q.
Proof.
  split.
  - apply rounds_sound.
  - induction 1 as [p Hp | p q r Hpq IH Hadj].
    + now apply connected_refl.
    + destruct (chain_in_range V p q Hpq) as [Hp _].
      unfold Dedup.connected. rewrite <- (rounds_saturated V p Hp).
      now apply (bfs_round_reaches V _ q r).
Qed.

Lemma find_ext_in {A} (P Q : A -> bool) (l : list A) :
  (forall a, In a l -> P a = Q a) -> find P l = find Q l.
Proof.
  induction l as [| a l IH]; intros Hext; simpl; [reflexivity |].
  rewrite <- (Hext a) by now left.
  destruct (P a); [reflexivity |]. apply IH.
  intros b Hb. apply Hext. now right.
Qed.

(** The labelling of section 3: two points have the same label exactly
    when a chain of pairwise relations connects them. *)
Lemma label_same_iff_chain (V : list point) (p q : nat) :
  p < length V -> q < length V ->
  label V p = label V q <-> Dedup.chain E V p q.
Proof.
  intros Hp Hq.
  assert (Hlab : forall r, r < length V -> Dedup.chain E V (label V r) r).
  { intros r Hr. unfold Dedup.label.
    destruct (find_seq_le (fun a => connected V a r) 0 (length V) r)
      as (a & Hfind & _); [lia | now apply connected_refl |].
    rewrite Hfind. apply find_some in Hfind.
    now apply connected_iff_chain. }
  split.
  - intros Heq. apply (chain_trans V p (label V p) q).
    + apply chain_sym. now apply Hlab.
    + rewrite Heq. now apply Hlab.
  - intros Hchain. unfold Dedup.label.
    rewrite (find_ext_in (fun a => connected V a p)
               (fun a => connected V a q)).
    + destruct (find_seq_le (fun a => connected V a q) 0 (length V) q)
        as (a & Hfind & _); [lia | now apply connected_refl |].
      now rewrite Hfind.
    + intros a _. apply eq_true_iff_eq. rewrite !connected_iff_chain.
      split; intros Ha.
      * now apply (chain_trans V a p q).
      * apply (chain_trans V a q p); [assumption | now apply chain_sym].
Qed.

End DedupFacts.

Example get_unique_points_clusters :
  Dedup.get_connected_components Examples.near [3; 4; 10; 3; 11; 20]
  = [0; 0; 2; 0; 2; 5]
  /\ Dedup.get_unique_points Examples.near [3; 4; 10; 3; 11; 20]
     = [3; 10; 20]
  /\ Dedup.get_unique_points Examples.near [1; 3; 2; 7; 9; 8; 1] = [1; 7].
Proof. repeat split; vm_compute; reflexivity. Qed.

(** ** The step budget of the tracer *)

Section TracerFacts.

Variables World D Jac Log : Type.
Variable clock : Py.M World NP.float.
Variable random_state : Py.M World vec.
Variable random_direction : Py.M World vec.
Variable norm : vec -> NP.float.
Variable newton_update :
  (vec -> vec) -> (vec -> Jac) -> vec -> AugPoint -> AugPoint.
Variable null_vector : (vec -> Jac) -> vec -> AugPoint -> AugPoint.
Variable solve_tolerance : NP.float.
Variable default_solve_iterations : nat.

Hypothesis clock_returns :
  forall w, exists t w', clock w = (Py.Ok t, w').
Hypothesis random_state_returns :
  forall w, exists s w', random_state w = (Py.Ok s, w').
Hypothesis random_direction_returns :
  forall w, exists s w', random_direction w = (Py.Ok s, w').

Local Abbreviation step_loop :=
  (Tracer.step_loop clock norm newton_update null_vector solve_tolerance
     default_solve_iterations).

Local Abbreviation traverse_fiber :=
  (Tracer.traverse_fiber clock random_state random_direction norm
     newton_update null_vector solve_tolerance default_solve_iterations).

Lemma deadline_reached_returns (args : TraverseArgs D Jac Log) (w : World) :
  exists b w', Tracer.deadline_reached clock args w = (Py.Ok b, w').
Proof.
  unfold Tracer.deadline_reached. destruct (arg_stop_time args) as [t |].
  - destruct (clock_returns w) as (now & w' & Hnow).
    unfold Py.bind. rewrite Hnow. eexists. eexists. reflexivity.
  - eexists. eexists. reflexivity.
Qed.

(** Every iteration appends one point, and no iteration starts once the
    number of steps taken has reached the budget. *)
Lemma step_loop_bounded (args : TraverseArgs D Jac Log) (k : nat) :
  arg_max_traverse_steps args = Some k ->
  forall (fuel steps : nat) (trace : FiberTrace D) (w : World),
    length (tr_points trace) = steps ->
    steps = 0 \/ steps < k ->
    1 <= fuel -> Nat.max 1 k - steps <= fuel ->
    exists trace' w',
      step_loop fuel args steps trace w = (Py.Ok trace', w')
      /\ length (tr_points trace') <= Nat.max 1 k.
Proof.
  intros Hk. induction fuel as [| fuel IH];
    intros steps trace w Hlen Hsteps H1 Hfuel; [lia |].
  cbn [Tracer.step_loop].
  destruct (arg_compute_step_amount args trace) as [amount data].
  destruct (Tracer.corrector _ _ _ _ _ _ _ _ _) as [x_new residuals].
  set (trace1 := {| tr_points := tr_points trace ++ [x_new];
                    tr_c := _; tr_x := _; tr_z := _; tr_status := _;
                    tr_step_data := _; tr_residuals := _ |}).
  assert (Hlen1 : length (tr_points trace1) = S steps).
  { subst trace1. cbn [tr_points]. rewrite length_app. simpl. lia. }
  assert (Hdone : forall s,
            length (tr_points (Tracer.with_status s trace1))
            <= Nat.max 1 k).
  { intros s. cbn [Tracer.with_status tr_points]. rewrite Hlen1. lia. }
  destruct (Tracer.user_terminate args trace1).
  - eexists. eexists. split; [reflexivity | apply Hdone].
  - destruct (deadline_reached_returns args w) as (b & w1 & Hb).
    unfold Py.bind at 1. rewrite Hb. destruct b.
    + eexists. eexists. split; [reflexivity | apply Hdone].
    + unfold Tracer.max_steps_reached. rewrite Hk.
      destruct (Nat.leb_spec k (S steps)) as [Hle | Hgt].
      * eexists. eexists. split; [reflexivity | apply Hdone].
      * apply IH; [assumption | right; lia | lia | lia].
Qed.

(** C6: with [max_traverse_steps = k] the tracer returns, and the point
    sequence of the trace has at most [k + 1] elements. *)
Theorem traverse_fiber_step_budget
    (args : TraverseArgs D Jac Log) (k fuel : nat) (w : World) :
  arg_max_traverse_steps args = Some k ->
  Nat.max 1 k <= fuel ->
  exists trace w',
    traverse_fiber fuel args w = (Py.Ok trace, w')
    /\ length (tr_points trace) <= k + 1.
Proof.
  intros Hk Hfuel. unfold Tracer.traverse_fiber.
  assert (Hv : exists s w1,
            match arg_v args with
            | Some v => Py.ret v
            | None => random_state
            end w = (Py.Ok s, w1)).
  { destruct (arg_v args); [eexists; eexists; reflexivity |].
    apply random_state_returns. }
  destruct Hv as (v0 & w1 & Hv). unfold Py.bind at 1. rewrite Hv.
  assert (Hc : exists s w2,
            match arg_c args with
            | Some c => Py.ret c
            | None => random_direction
            end w1 = (Py.Ok s, w2)).
  { destruct (arg_c args); [eexists; eexists; reflexivity |].
    apply random_direction_returns. }
  destruct Hc as (c0 & w2 & Hc). unfold Py.bind at 1. rewrite Hc.
  destruct (Tracer.corrector _ _ _ _ _ _ _ _ _) as [x0 residuals].
  destruct (step_loop_bounded args k Hk fuel 0
              {| tr_points := [];
                 tr_c := c0;
                 tr_x := x0;
                 tr_z := Tracer.compute_tangent null_vector (arg_Df args)
                           c0 x0 (arg_z args);
                 tr_status := Running;
                 tr_step_data := [];
                 tr_residuals := [residuals] |} w2)
    as (trace & w' & Hrun & Hlen); [reflexivity | now left | lia | lia |].
  exists trace, w'. split; [exact Hrun | lia].
Qed.

End TracerFacts.

(** ** The solvers on the line example *)

Example line_tracer_alphas :
  exists trace w',
    Examples.line_tracer Examples.line_args 0 = (Py.Ok trace, w')
    /\ tr_status trace = MaxSteps
    /\ map alpha_of (tr_points trace)
       = [NP.Fin (-4); NP.Fin (-3); NP.Fin (-2); NP.Fin (-1); NP.Fin 0;
          NP.Fin 1; NP.Fin 2; NP.Fin 3; NP.Fin 4].
Proof.
  destruct (Examples.line_tracer Examples.line_args 0)
    as [[trace | e |] w'] eqn:Hrun; vm_compute in Hrun;
    [| discriminate ..].
  inversion Hrun; subst. eexists. eexists. repeat split; reflexivity.
Qed.

Example line_solver_candidates :
  exists sol w',
    Examples.line_solver false 0 = (Py.Ok sol, w')
    /\ Fixed_index sol = [0; 1; 2; 3; 4; 5; 7; 8]
    /\ Fixed_points sol
       = [[NP.Fin (-4)]; [NP.Fin (-3)]; [NP.Fin (-2)]; [NP.Fin (-1)];
          [NP.Fin 0]; [NP.Fin 1]; [NP.Fin 3]; [NP.Fin 4]].
Proof.
  destruct (Examples.line_solver false 0)
    as [[sol | e |] w'] eqn:Hrun; vm_compute in Hrun;
    [| discriminate ..].
  inversion Hrun; subst. eexists. eexists. repeat split; reflexivity.
Qed.

Example local_solver_two_samples :
  local_solver Examples.tick Examples.sample_origin Examples.no_updates
    Examples.keep Examples.identity_f tt tt None (Some 2) 0 5 0
  = (Py.Ok {| Seeds := [[NP.Fin 0]; [NP.Fin 0]];
              Updates := [0; 0];
              Optima := [[NP.Fin 0]; [NP.Fin 0]] |}, 1).
Proof. vm_compute. reflexivity. Qed.


Lemma refinement_reinvokes_tracer_per_candidate_example :
  exists sol w',
    Examples.line_solver true 0 = (Py.Ok sol, w')
    /\ 1 <= length (Refinements sol)
    /\ length (Refinements sol) = length (Fixed_index sol)
    /\ exists k p r wa wb refine_terminate,
         nth_error (Fixed_index sol) k = Some 0
         /\ nth_error (tr_points (Fiber_trace sol)) 0 = Some p
         /\ nth_error (Refinements sol) k = Some r
         /\ Examples.line_tracer
              {| arg_f := Examples.identity_f;
                 arg_Df := Examples.jacobian;
                 arg_ef := Examples.tolerance;
                 arg_compute_step_amount :=
                   compute_refine_step_amount
                     (Examples.constant_step (NP.Fin 1));
                 arg_v := Some (v_of p);
                 arg_c := Some (tr_c (Fiber_trace sol));
                 arg_z := None;
                 arg_N := None;
                 arg_terminate := Some refine_terminate;
                 arg_logfile := None;
                 arg_stop_time := None;
                 arg_max_traverse_steps := Some 32;
                 arg_max_step_size := None;
                 arg_max_solve_iterations := None |} wa
            = (Py.Ok r, wb).
Proof.
  destruct (Examples.line_solver true 0) as [[sol | e |] w'] eqn:Hrun;
    [| vm_compute in Hrun; discriminate ..].
  exists sol, w'. split; [reflexivity |].
  destruct (refinement_reinvokes_tracer_per_candidate
              nat unit unit unit Examples.line_tracer Examples.identity_f
              Examples.tolerance Examples.jacobian
              (Examples.constant_step (NP.Fin 1))
              (Some [NP.Fin (-5)]) (Some [NP.Fin 1]) None None None None
              None (Some 9) None None true 0 w' sol Hrun)
    as (m0 & w0 & ws & _ & _ & Hpts & H0 & Hmarked & Hone & Hlen & _ & _
        & Hcalls).
  split; [exact Hone |]. split; [exact Hlen |].
  destruct (Hmarked 0 Hpts H0) as (k & Hk).
  destruct (Hcalls k 0 Hk)
    as (_ & p & r & q & wa & wb & rt & Hp & Hr & _ & _ & Hcall & _).
  exists k, p, r, wa, wb, rt. repeat split; assumption.
Defined.

Lemma no_refinement_without_within_fiber_example :
  exists sol w',
    Examples.line_solver false 0 = (Py.Ok sol, w')
    /\ Refinements sol = []
    /\ length (Fixed_points sol) = length (Fixed_index sol).
Proof.
  destruct (Examples.line_solver false 0) as [[sol | e |] w'] eqn:Hrun;
    [| vm_compute in Hrun; discriminate ..].
  exists sol, w'. split; [reflexivity |].
  destruct (no_refinement_without_within_fiber
              nat unit unit unit Examples.line_tracer Examples.identity_f
              Examples.tolerance Examples.jacobian
              (Examples.constant_step (NP.Fin 1))
              (Some [NP.Fin (-5)]) (Some [NP.Fin 1]) None None None None
              None (Some 9) None None true 0 w' sol Hrun)
    as (_ & Hnone & Hlen & _).
  split; assumption.
Defined.

Lemma tick_returns (w : nat) :
  exists t w', Examples.tick w = (Py.Ok t, w').
Proof. eexists. eexists. reflexivity. Qed.

Lemma fixed_seed_returns (w : nat) :
  exists s w', Examples.fixed_seed w = (Py.Ok s, w').
Proof. eexists. eexists. reflexivity. Qed.

Lemma local_solver_raises_without_samples_example :
  (exists w',
     local_solver Examples.tick Examples.sample_origin Examples.no_updates
       Examples.keep Examples.identity_f tt tt None (Some 0) 0 1 0
     = (Py.Raise Py.ValueError, w'))
  /\ (exists w',
        local_solver Examples.tick Examples.sample_origin Examples.no_updates
          Examples.keep Examples.identity_f tt tt (Some (NP.Fin 1)) None 0 1 0
        = (Py.Raise Py.ValueError, w')).
Proof.
  split.
  - apply (local_solver_raises_without_samples nat unit unit Examples.tick
             Examples.sample_origin Examples.no_updates Examples.keep
             Examples.identity_f tt tt None (Some 0) 0 0 0 (NP.Fin 0) 1
             tick_returns eq_refl).
    left. reflexivity.
  - apply (local_solver_raises_without_samples nat unit unit Examples.tick
             Examples.sample_origin Examples.no_updates Examples.keep
             Examples.identity_f tt tt (Some (NP.Fin 1)) None 0 0 0
             (NP.Fin 0) 1 tick_returns eq_refl).
    right. exists (NP.Fin 1), (NP.Fin 1), 2.
    split; [reflexivity |]. split; reflexivity.
Defined.

Lemma traverse_fiber_step_budget_example :
  (arg_max_traverse_steps Examples.line_args = Some 9 /\ Nat.max 1 9 <= 40)
  /\ exists trace w',
       Examples.line_tracer Examples.line_args 0 = (Py.Ok trace, w')
       /\ length (tr_points trace) <= 9 + 1.
Proof.
  assert (Hfuel : Nat.max 1 9 <= 40) by (simpl; lia).
  split; [split; [reflexivity | exact Hfuel] |].
  exact (traverse_fiber_step_budget nat unit unit unit Examples.tick
           Examples.fixed_seed Examples.fixed_seed Examples.l1_norm
           Examples.exact_solve Examples.line_tangent
           (NP.Fin (1 # 1000000)) 8 tick_returns fixed_seed_returns
           fixed_seed_returns Examples.line_args 9 40 0 eq_refl Hfuel).
Defined.

(* ================================================================= *)
(** * Further properties of the solvers *)

(** ** Which indices become candidates *)

Lemma mark_candidates_premarked (local_abs_min : bool) (a : list NP.float)
    (m0 : list bool) (j : nat) :
  mark_candidates local_abs_min a = Py.Ok m0 ->
  j < length a ->
  nth j m0 false = true <-> premarked local_abs_min a j.
Proof.
  intros Hm0 Hj.
  destruct (mark_candidates_spec local_abs_min a) as (m & Hm & _ & Hnth);
    [lia |].
  rewrite Hm in Hm0. inversion Hm0; subst m0.
  rewrite (Hnth j Hj). unfold premarked.
  replace (j + 1) with (S j) by lia.
  rewrite !orb_true_iff, !andb_true_iff.
  rewrite Nat.eqb_eq, Nat.eqb_eq, Nat.ltb_lt, Nat.leb_le.
  split.
  - intros [[[H | H] | [H1 H2]] | [[[[H1 H2] H3] H4] H5]].
    + now left.
    + right. now left.
    + right. right. left. split; [lia | assumption].
    + right. right. right. repeat split; try assumption; lia.
  - intros [H | [H | [[H1 H2] | (H1 & H2 & H3 & H4 & H5)]]].
    + left. left. now left.
    + left. left. now right.
    + left. right. split; [lia | assumption].
    + right. repeat split; try assumption; lia.
Qed.

Lemma mark_candidates_length (local_abs_min : bool) (a : list NP.float)
    (m0 : list bool) :
  mark_candidates local_abs_min a = Py.Ok m0 ->
  length m0 = length a /\ 1 <= length a.
Proof.
  intros Hm0. destruct a as [| a0 a]; [discriminate |].
  destruct (mark_candidates_spec local_abs_min (a0 :: a))
    as (m & Hm & Hlen & _); [simpl; lia |].
  rewrite Hm in Hm0. inversion Hm0; subst m0.
  split; [assumption | simpl; lia].
Qed.

(** The final mask marks [i] exactly when one of [i-1], [i], [i+1] is marked
    by the rules. *)
Lemma final_mask_premarked (local_abs_min : bool) (a : list NP.float)
    (m0 : list bool) (i : nat) :
  mark_candidates local_abs_min a = Py.Ok m0 ->
  i < length a ->
  nth i (expand_neighbors m0) false = true <->
  exists j, j < length a /\ (j = i \/ j + 1 = i \/ j = i + 1)
            /\ premarked local_abs_min a j.
Proof.
  intros Hm0 Hi.
  destruct (mark_candidates_length _ _ _ Hm0) as [Hlen _].
  rewrite nth_expand_neighbors by lia.
  rewrite !orb_true_iff, !andb_true_iff, Nat.leb_le, Nat.ltb_lt, Hlen.
  split.
  - intros [[H | [H1 H]] | [H1 H]].
    + exists i. split; [lia |]. split; [now left |].
      now apply (mark_candidates_premarked _ _ _ _ Hm0).
    + exists (i - 1). split; [lia |]. split; [right; left; lia |].
      apply (mark_candidates_premarked _ _ _ _ Hm0); [lia | assumption].
    + exists (S i). split; [lia |]. split; [right; right; lia |].
      apply (mark_candidates_premarked _ _ _ _ Hm0); [lia | assumption].
  - intros (j & Hj & Hnear & Hrule).
    apply (mark_candidates_premarked _ _ _ _ Hm0) in Hrule; [| assumption].
    destruct Hnear as [-> | [Hn | ->]].
    + left. now left.
    + left. right. split; [lia |].
      replace (i - 1) with j by lia. assumption.
    + right. split; [lia |]. replace (S i) with (i + 1) by lia. assumption.
Qed.

Lemma flatnonzero_from_all (mask : list bool) (s : nat) :
  (forall i, i < length mask -> nth i mask false = true) ->
  Py.flatnonzero_from s mask = seq s (length mask).
Proof.
  revert s. induction mask as [| b mask IH]; intros s Hall; [reflexivity |].
  pose proof (Hall 0 ltac:(simpl; lia)) as H0. simpl in H0. subst b.
  simpl. f_equal. apply IH.
  intros i Hi. apply (Hall (S i)). simpl. lia.
Qed.

Lemma Qsign_zero (q : Q) : (q == 0)%Q -> NP.Qsign q = 0%Q.
Proof.
  intros Hq. destruct (Qsign_cases q) as [[H _] | [[_ H] | [H _]]];
    [| exact H |]; rewrite Hq in H; discriminate.
Qed.

Lemma Qsign_zero_inv (q : Q) : (NP.Qsign q == 0)%Q -> (q == 0)%Q.
Proof.
  intros Hs. destruct (Qsign_cases q) as [[_ H] | [[H _] | [_ H]]];
    [| exact H |]; rewrite H in Hs; discriminate.
Qed.

(** A scalar whose sign does not differ from the sign of zero is zero. *)
Lemma same_sign_as_zero (q : Q) (x : NP.float) :
  (q == 0)%Q ->
  NP.ne (NP.sign (NP.Fin q)) (NP.sign x) = false
  \/ NP.ne (NP.sign x) (NP.sign (NP.Fin q)) = false ->
  exists q', x = NP.Fin q' /\ (q' == 0)%Q.
Proof.
  intros Hq Hne. unfold NP.ne in Hne. rewrite !negb_false_iff in Hne.
  cbn [NP.sign] in Hne. rewrite (Qsign_zero q Hq) in Hne.
  destruct x as [q' | | |]; cbn [NP.sign NP.eqb] in Hne.
  - exists q'. split; [reflexivity |]. apply Qsign_zero_inv.
    destruct Hne as [H | H]; apply Qeq_bool_eq in H;
      [now symmetry | assumption].
  - destruct Hne as [H | H]; discriminate.
  - destruct Hne as [H | H]; discriminate.
  - destruct Hne as [H | H]; discriminate.
Qed.

Section CandidateFacts.

Variables World D Jac Log : Type.
Variable traverse_fiber :
  TraverseArgs D Jac Log -> Py.M World (FiberTrace D).
Variables (f : vec -> vec) (ef : vec -> vec) (Df : vec -> Jac).
Variable compute_step_amount : controller D.
Variables (v : option vec) (c : option vec) (z : option AugPoint)
          (N : option nat).
Variable terminate : option (FiberTrace D -> bool).
Variable logfile : option Log.
Variable stop_time : option NP.float.
Variable max_traverse_steps : option nat.
Variable max_step_size : option NP.float.
Variable max_solve_iterations : option nat.

Local Abbreviation solve :=
  (fiber_solver traverse_fiber f ef Df compute_step_amount v c z N terminate
     logfile stop_time max_traverse_steps max_step_size max_solve_iterations).

Local Abbreviation alphas sol :=
  (map alpha_of (tr_points (Fiber_trace sol))).

(** The mask behind ["Fixed index"]. *)
Lemma fixed_index_mask (local_abs_min within_fiber : bool) (w w' : World)
    (sol : Solution D) :
  solve local_abs_min within_fiber w = (Py.Ok sol, w') ->
  exists m0,
    mark_candidates local_abs_min (alphas sol) = Py.Ok m0
    /\ length m0 = length (alphas sol)
    /\ 1 <= length (alphas sol)
    /\ Fixed_index sol = Py.flatnonzero (expand_neighbors m0).
Proof.
  intros Hrun.
  apply fiber_solver_ok in Hrun.
  destruct Hrun as (fr & w1 & m0 & rr & fp & _ & _ & Hm0 & _ & _ & ->).
  cbn [Fiber_trace Fixed_index].
  destruct (mark_candidates_length _ _ _ Hm0) as [Hlen H1].
  exists m0. now repeat split.
Qed.

Lemma fixed_index_In (local_abs_min within_fiber : bool) (w w' : World)
    (sol : Solution D) (m0 : list bool) (i : nat) :
  length m0 = length (alphas sol) ->
  Fixed_index sol = Py.flatnonzero (expand_neighbors m0) ->
  In i (Fixed_index sol) <->
  i < length (alphas sol) /\ nth i (expand_neighbors m0) false = true.
Proof.
  intros Hlen ->. unfold Py.flatnonzero. rewrite flatnonzero_from_In.
  rewrite Nat.sub_0_r, length_expand_neighbors, Hlen. simpl.
  split; intros [H1 H2]; (split; [lia | assumption]).
Qed.

(** X3: an index of the trace is in ["Fixed index"] exactly when it is, or is
    next to, an index that the rules mark: an endpoint, a sign change of
    alpha towards the next point, or (when enabled) a local minimum of the
    magnitude of alpha. *)
Theorem candidate_iff_next_to_premarked
    (local_abs_min within_fiber : bool) (w w' : World) (sol : Solution D)
    (i : nat) :
  solve local_abs_min within_fiber w = (Py.Ok sol, w') ->
  In i (Fixed_index sol) <->
  i < length (alphas sol)
  /\ exists j, j < length (alphas sol)
               /\ (j = i \/ j + 1 = i \/ j = i + 1)
               /\ premarked local_abs_min (alphas sol) j.
Proof.
  intros Hrun.
  destruct (fixed_index_mask _ _ _ _ _ Hrun) as (m0 & Hm0 & Hlen & _ & HFI).
  rewrite (fixed_index_In local_abs_min within_fiber w w' sol m0 i Hlen HFI).
  split; intros [Hi H]; (split; [assumption |]);
    now apply (final_mask_premarked _ _ _ _ Hm0 Hi).
Qed.

(** X1: both endpoints of the trace are always candidates. *)
Theorem endpoints_are_candidates
    (local_abs_min within_fiber : bool) (w w' : World) (sol : Solution D) :
  solve local_abs_min within_fiber w = (Py.Ok sol, w') ->
  1 <= length (tr_points (Fiber_trace sol))
  /\ In 0 (Fixed_index sol)
  /\ In (length (tr_points (Fiber_trace sol)) - 1) (Fixed_index sol).
Proof.
  intros Hrun.
  destruct (fixed_index_mask _ _ _ _ _ Hrun) as (m0 & Hm0 & Hlen & H1 & HFI).
  split; [now rewrite length_map in H1 |].
  rewrite <- (length_map alpha_of).
  split; apply (fixed_index_In local_abs_min within_fiber w w' sol m0 _
                  Hlen HFI);
    (split; [lia |]); apply (final_mask_premarked _ _ _ _ Hm0); try lia.
  - exists 0. split; [lia |]. split; [now left | now left].
  - exists (length (alphas sol) - 1). split; [lia |].
    split; [now left | right; now left].
Qed.

(** X2: when the sign of alpha differs between two successive points of the
    trace, both of them are candidates. *)
Theorem sign_change_is_extracted
    (local_abs_min within_fiber : bool) (w w' : World) (sol : Solution D)
    (i : nat) :
  solve local_abs_min within_fiber w = (Py.Ok sol, w') ->
  i + 1 < length (alphas sol) ->
  NP.ne (NP.sign (nth i (alphas sol) NP.NaN))
        (NP.sign (nth (i + 1) (alphas sol) NP.NaN)) = true ->
  In i (Fixed_index sol) /\ In (i + 1) (Fixed_index sol).
Proof.
  intros Hrun Hi Hne.
  destruct (fixed_index_mask _ _ _ _ _ Hrun) as (m0 & Hm0 & Hlen & H1 & HFI).
  assert (Hrule : premarked local_abs_min (alphas sol) i).
  { right. right. left. now split. }
  split; apply (fixed_index_In local_abs_min within_fiber w w' sol m0 _
                  Hlen HFI);
    (split; [lia |]); apply (final_mask_premarked _ _ _ _ Hm0); try lia;
    exists i; (split; [lia |]); (split; [| assumption]).
  - now left.
  - right. now left.
Qed.

(** X4: on a trace of at most four points every point is a candidate,
    whatever the values of alpha. *)
Theorem short_trace_all_candidates
    (local_abs_min within_fiber : bool) (w w' : World) (sol : Solution D) :
  solve local_abs_min within_fiber w = (Py.Ok sol, w') ->
  length (tr_points (Fiber_trace sol)) <= 4 ->
  Fixed_index sol = seq 0 (length (tr_points (Fiber_trace sol))).
Proof.
  intros Hrun Hshort.
  destruct (fixed_index_mask _ _ _ _ _ Hrun) as (m0 & Hm0 & Hlen & H1 & HFI).
  rewrite <- (length_map alpha_of) in Hshort |- *.
  rewrite HFI. unfold Py.flatnonzero.
  rewrite <- Hlen, <- (length_expand_neighbors m0).
  apply flatnonzero_from_all. rewrite length_expand_neighbors, Hlen.
  intros i Hi. apply (final_mask_premarked _ _ _ _ Hm0 Hi).
  destruct (Nat.eq_dec i 0) as [-> | Hi0].
  { exists 0. split; [lia |]. split; [now left | now left]. }
  destruct (Nat.eq_dec i 1) as [-> | Hi1].
  { exists 0. split; [lia |]. split; [right; now left | now left]. }
  exists (length (alphas sol) - 1). split; [lia |].
  split; [| right; now left]. lia.
Qed.

(** X5: on a trace of at least two points no candidate stands alone: the
    index before it or the index after it is a candidate as well. *)
Theorem no_isolated_candidate
    (local_abs_min within_fiber : bool) (w w' : World) (sol : Solution D)
    (i : nat) :
  solve local_abs_min within_fiber w = (Py.Ok sol, w') ->
  2 <= length (tr_points (Fiber_trace sol)) ->
  In i (Fixed_index sol) ->
  (1 <= i /\ In (i - 1) (Fixed_index sol)) \/ In (i + 1) (Fixed_index sol).
Proof.
  intros Hrun HM Hin. rewrite <- (length_map alpha_of) in HM.
  destruct (fixed_index_mask _ _ _ _ _ Hrun) as (m0 & Hm0 & Hlen & H1 & HFI).
  pose proof (fixed_index_In local_abs_min within_fiber w w' sol m0)
    as HIn.
  apply (HIn i Hlen HFI) in Hin. destruct Hin as [Hi Hset].
  apply (final_mask_premarked _ _ _ _ Hm0 Hi) in Hset.
  destruct Hset as (j & Hj & Hnear & Hrule).
  assert (Hnext : forall k, k < length (alphas sol) ->
            (j = k \/ j + 1 = k \/ j = k + 1) -> In k (Fixed_index sol)).
  { intros k Hk Hnk. apply (HIn k Hlen HFI). split; [assumption |].
    apply (final_mask_premarked _ _ _ _ Hm0 Hk). now exists j. }
  destruct Hnear as [-> | [Hn | ->]].
  - destruct (Nat.eq_dec i 0) as [-> | Hi0].
    + right. apply Hnext; [lia | right; left; lia].
    + left. split; [lia |]. apply Hnext; [lia | right; right; lia].
  - left. split; [lia |]. apply Hnext; [lia | left; lia].
  - right. apply Hnext; [lia | now left].
Qed.

(** X6: with local minima extracted, a point of the trace at which alpha is
    exactly zero is always a candidate. *)
Theorem exact_root_is_candidate
    (within_fiber : bool) (w w' : World) (sol : Solution D) (i : nat)
    (q : Q) :
  solve true within_fiber w = (Py.Ok sol, w') ->
  i < length (alphas sol) ->
  nth i (alphas sol) NP.NaN = NP.Fin q ->
  (q == 0)%Q ->
  In i (Fixed_index sol).
Proof.
  intros Hrun Hi Hai Hq.
  destruct (fixed_index_mask _ _ _ _ _ Hrun) as (m0 & Hm0 & Hlen & H1 & HFI).
  apply (fixed_index_In true within_fiber w w' sol m0 i Hlen HFI).
  split; [assumption |]. apply (final_mask_premarked _ _ _ _ Hm0 Hi).
  destruct (Nat.eq_dec i 0) as [-> | Hi0].
  { exists 0. split; [lia |]. split; [now left | now left]. }
  destruct (Nat.eq_dec i (length (alphas sol) - 1)) as [Hl | Hl].
  { exists i. split; [lia |]. split; [now left | right; now left]. }
  destruct (NP.ne (NP.sign (nth i (alphas sol) NP.NaN))
                  (NP.sign (nth (i + 1) (alphas sol) NP.NaN))) eqn:Hnext.
  { exists i. split; [lia |]. split; [now left |].
    right. right. left. split; [lia | assumption]. }
  destruct (NP.ne (NP.sign (nth (i - 1) (alphas sol) NP.NaN))
                  (NP.sign (nth i (alphas sol) NP.NaN))) eqn:Hprev.
  { exists (i - 1). split; [lia |]. split; [right; left; lia |].
    right. right. left. split; [lia |].
    replace (i - 1 + 1) with i by lia. assumption. }
  rewrite Hai in Hnext, Hprev.
  destruct (same_sign_as_zero q _ Hq (or_introl Hnext)) as (qn & Hqn & Hn0).
  destruct (same_sign_as_zero q _ Hq (or_intror Hprev)) as (qp & Hqp & Hp0).
  exists i. split; [lia |]. split; [now left |].
  right. right. right. split; [reflexivity |].
  split; [lia |]. split; [lia |].
  rewrite Hai, Hqn, Hqp. cbn [NP.fabs NP.le].
  split; apply Qle_bool_iff; rewrite Hq.
  - apply Qabs_nonneg.
  - apply Qabs_nonneg.
Qed.

(** X7: extracting local minima only adds candidates: for the same trace,
    the candidates found without it are among those found with it. *)
Theorem local_minima_only_add_candidates
    (within_fiber within_fiber' : bool) (w1 w1' w2 w2' : World)
    (sol sol' : Solution D) :
  solve false within_fiber w1 = (Py.Ok sol, w1') ->
  solve true within_fiber' w2 = (Py.Ok sol', w2') ->
  tr_points (Fiber_trace sol) = tr_points (Fiber_trace sol') ->
  incl (Fixed_index sol) (Fixed_index sol').
Proof.
  intros Hrun Hrun' Hsame i Hin.
  destruct (fixed_index_mask _ _ _ _ _ Hrun) as (m0 & Hm0 & Hlen & _ & HFI).
  destruct (fixed_index_mask _ _ _ _ _ Hrun')
    as (m0' & Hm0' & Hlen' & _ & HFI').
  apply (fixed_index_In false within_fiber w1 w1' sol m0 i Hlen HFI) in Hin.
  apply (fixed_index_In true within_fiber' w2 w2' sol' m0' i Hlen' HFI').
  destruct Hin as [Hi Hset]. rewrite <- Hsame.
  split; [assumption |].
  rewrite <- Hsame in Hm0'.
  apply (final_mask_premarked _ _ _ _ Hm0' Hi).
  apply (final_mask_premarked _ _ _ _ Hm0 Hi) in Hset.
  destruct Hset as (j & Hj & Hnear & Hrule).
  exists j. split; [assumption |]. split; [assumption |].
  destruct Hrule as [H | [H | [H | (H & _)]]];
    [now left | right; now left | right; right; now left | discriminate].
Qed.

End CandidateFacts.

Example plateau_without_local_minima :
  option_map expand_neighbors
    (match mark_candidates false Cases.plateau with
     | Py.Ok m => Some m
     | _ => None
     end)
  = Some [true; true; false; false; true; true; true]
  /\ option_map expand_neighbors
       (match mark_candidates true Cases.plateau with
        | Py.Ok m => Some m
        | _ => None
        end)
     = Some [true; true; true; true; true; true; true].
Proof. split; vm_compute; reflexivity. Qed.

Example approach_marks_only_the_ends :
  option_map expand_neighbors
    (match mark_candidates true Cases.approach with
     | Py.Ok m => Some m
     | _ => None
     end)
  = Some [true; true; false; false; false; true; true].
Proof. vm_compute. reflexivity. Qed.

(** ** Traces without points *)

Section EmptyTraces.

Variables World D Jac Log : Type.
Variable traverse_fiber :
  TraverseArgs D Jac Log -> Py.M World (FiberTrace D).
Variables (f : vec -> vec) (ef : vec -> vec) (Df : vec -> Jac).
Variable compute_step_amount : controller D.
Variables (v : option vec) (c : option vec) (z : option AugPoint)
          (N : option nat).
Variable terminate : option (FiberTrace D -> bool).
Variable logfile : option Log.
Variable stop_time : option NP.float.
Variable max_traverse_steps : option nat.
Variable max_step_size : option NP.float.
Variable max_solve_iterations : option nat.
Variable local_abs_min : bool.

Local Abbreviation solve :=
  (fiber_solver traverse_fiber f ef Df compute_step_amount v c z N terminate
     logfile stop_time max_traverse_steps max_step_size max_solve_iterations
     local_abs_min).

Local Abbreviation trace_args :=
  {| arg_f := f;
     arg_Df := Df;
     arg_ef := ef;
     arg_compute_step_amount := compute_step_amount;
     arg_v := v;
     arg_c := c;
     arg_z := z;
     arg_N := N;
     arg_terminate := terminate;
     arg_logfile := logfile;
     arg_stop_time := stop_time;
     arg_max_traverse_steps := max_traverse_steps;
     arg_max_step_size := max_step_size;
     arg_max_solve_iterations := max_solve_iterations |}.

(** X8: when the tracer returns a trace without points, the solver raises
    the [ValueError] of [np.concatenate], whether or not candidates are to be
    refined, and invokes the tracer no further. *)
Theorem empty_trace_raises
    (within_fiber : bool) (w w1 : World) (fr : FiberTrace D) :
  traverse_fiber trace_args w = (Py.Ok fr, w1) ->
  tr_points fr = [] ->
  solve within_fiber w = (Py.Raise Py.ValueError, w1).
Proof.
  intros Hfr Hpts. unfold fiber_solver, Py.bind at 1. rewrite Hfr.
  unfold Py.bind at 1, Py.lift at 1. rewrite Hpts. reflexivity.
Qed.

(** X9: when the refinement of the first candidate returns a trace without
    points, the solver raises the [IndexError] of [points[-1]]. *)
Theorem refinement_without_points_raises
    (w w1 w2 : World) (fr r : FiberTrace D) (p0 : AugPoint)
    (ps : list AugPoint) :
  traverse_fiber trace_args w = (Py.Ok fr, w1) ->
  tr_points fr = p0 :: ps ->
  traverse_fiber
    {| arg_f := f;
       arg_Df := Df;
       arg_ef := ef;
       arg_compute_step_amount :=
         compute_refine_step_amount compute_step_amount;
       arg_v := Some (v_of p0);
       arg_c := Some (tr_c fr);
       arg_z := None;
       arg_N := None;
       arg_terminate :=
         Some (fun trace =>
                 is_fixed (v_of (tr_x trace)) f ef
                 || match terminate with
                    | None => fun _ => false
                    | Some t => t
                    end trace);
       arg_logfile := logfile;
       arg_stop_time := stop_time;
       arg_max_traverse_steps := Some 32;
       arg_max_step_size := max_step_size;
       arg_max_solve_iterations := max_solve_iterations |} w1
  = (Py.Ok r, w2) ->
  tr_points r = [] ->
  solve true w = (Py.Raise Py.IndexError, w2).
Proof.
  intros Hfr Hpts Hr Hempty. unfold fiber_solver, Py.bind at 1. rewrite Hfr.
  unfold Py.bind at 1, Py.lift at 1. rewrite Hpts.
  cbn [Py.np_concatenate].
  assert (Hne : p0 :: ps <> []) by discriminate.
  assert (H1 : 1 <= length (map alpha_of (p0 :: ps))) by (simpl; lia).
  destruct (mark_candidates_spec local_abs_min _ H1) as (m0 & Hm0 & _).
  destruct (mask_length local_abs_min _ _ Hne Hm0) as [Hlen H0].
  unfold Py.bind at 1, Py.lift at 1. rewrite Hm0.
  destruct (expand_neighbors m0) as [| b mask]; [discriminate |].
  simpl in H0. subst b. cbn [Py.select refine_candidates].
  unfold Py.bind at 1. unfold Py.bind at 1.
  match goal with
  | |- context [traverse_fiber ?a w1] =>
      assert (Hr' : traverse_fiber a w1 = (Py.Ok r, w2)) by exact Hr;
      rewrite Hr'
  end.
  unfold Py.bind at 1, Py.lift at 1. rewrite Hempty. reflexivity.
Qed.

End EmptyTraces.

(** ** The refinement step and the Newton step *)

Section DampedNewton.

Local Open Scope Q_scope.

Lemma blend_within (r fs : Q) : Qabs r <= fs -> NP.blend r fs == r.
Proof.
  intros Hle. unfold NP.blend.
  destruct (NP.Qltb fs (Qabs r)) eqn:E; [apply Qltb_lt in E; lra |].
  destruct (Qsign_cases r) as [[H ->] | [[H ->] | [H ->]]].
  - rewrite Qabs_neg by lra. lra.
  - rewrite H. reflexivity.
  - rewrite Qabs_pos by lra. lra.
Qed.

Lemma blend_clipped (r fs : Q) :
  fs < Qabs r -> NP.blend r fs == NP.Qsign r * fs.
Proof.
  intros Hlt. unfold NP.blend.
  destruct (NP.Qltb fs (Qabs r)) eqn:E; [reflexivity |].
  apply Qltb_lt in Hlt. congruence.
Qed.

Variable D : Type.
Variable compute_step_amount : controller D.

(** X10: when the Newton step [-x_alpha/z_alpha] is no larger in magnitude
    than the step of the fiber controller, it is returned unchanged;
    otherwise the fiber step is returned with the sign of the Newton
    step. *)
Theorem newton_step_taken_within_fiber_step
    (trace : FiberTrace D) (xa za fs : Q) (d : step_data D) :
  alpha_of (tr_x trace) = NP.Fin xa ->
  alpha_of (tr_z trace) = NP.Fin za ->
  ~ za == 0 ->
  compute_step_amount trace = (NP.Fin fs, d) ->
  exists s,
    fst (compute_refine_step_amount compute_step_amount trace) = NP.Fin s
    /\ (Qabs (- xa / za) <= fs -> s == - xa / za)
    /\ (fs < Qabs (- xa / za) -> s == NP.Qsign (- xa / za) * fs).
Proof.
  intros Hx Hz Hza Hc.
  rewrite (refine_step_amount_finite D compute_step_amount trace xa za fs d
             Hx Hz Hza Hc).
  eexists. split; [reflexivity |]. split.
  - apply blend_within.
  - apply blend_clipped.
Qed.

End DampedNewton.

(** ** What the local solver returns *)

Section LocalSolverResults.

Variables World QG Hess : Type.
Variable clock : Py.M World NP.float.
Variable sampler : Py.M World vec.
Variable randint : nat -> Py.M World nat.
Variable minimize : QG -> Hess -> vec -> vec.
Variable f : vec -> vec.
Variables (qg : QG) (H : Hess).
Variable stop_time : option NP.float.
Variable max_repeats : option nat.
Variable max_updates : nat.

Local Abbreviation solve :=
  (local_solver clock sampler randint minimize f qg H stop_time max_repeats
     max_updates).

Local Abbreviation loop :=
  (local_solver_loop clock sampler randint minimize f qg H stop_time
     max_repeats max_updates).

(** The optimum that the loop computes from a seed and its number of
    updates. *)
Local Abbreviation optimum_of :=
  (fun p : vec * nat => minimize qg H (iterate_updates f (snd p) (fst p))).

(** What the loop has appended when it breaks. *)
Lemma local_solver_loop_ok (fuel : nat) :
  forall (repeat : nat) (seeds : list vec) (updates : list nat)
         (optima : list vec) (w w' : World)
         (seeds' : list vec) (updates' : list nat) (optima' : list vec),
    loop fuel repeat seeds updates optima w
    = (Py.Ok (seeds', updates', optima'), w') ->
    exists ns nu,
      seeds' = seeds ++ ns /\ updates' = updates ++ nu
      /\ optima' = optima ++ map optimum_of (combine ns nu)
      /\ length ns = length nu
      /\ (forall n, max_repeats = Some n -> length ns <= n - repeat)
      /\ Forall (fun u => exists w1 w2,
                   randint (max_updates + 1) w1 = (Py.Ok u, w2)) nu.
Proof.
  induction fuel as [| fuel IH];
    intros repeat seeds updates optima w w' seeds' updates' optima' Hrun;
    [discriminate |].
  assert (Hnone : exists ns nu : list _,
            seeds = seeds ++ ns /\ updates = updates ++ nu
            /\ optima = optima ++ map optimum_of (combine ns nu)
            /\ length ns = length nu
            /\ (forall n, max_repeats = Some n -> length ns <= n - repeat)
            /\ Forall (fun u => exists w1 w2,
                         randint (max_updates + 1) w1 = (Py.Ok u, w2)) nu).
  { exists [], []. rewrite !app_nil_r. repeat split; try reflexivity.
    - intros n _. simpl. lia.
    - constructor. }
  cbn [local_solver_loop] in Hrun.
  apply bind_ok in Hrun. destruct Hrun as (timed_out & w1 & _ & Hrun).
  destruct timed_out.
  { apply ret_ok in Hrun. destruct Hrun as [Heq _].
    inversion Heq; subst. exact Hnone. }
  destruct (max_repeats_reached max_repeats repeat) eqn:Hmax.
  { apply ret_ok in Hrun. destruct Hrun as [Heq _].
    inversion Heq; subst. exact Hnone. }
  apply bind_ok in Hrun. destruct Hrun as (seed & w2 & _ & Hrun).
  apply bind_ok in Hrun. destruct Hrun as (num & w3 & Hnum & Hrun).
  destruct (IH _ _ _ _ _ _ _ _ _ Hrun)
    as (ns & nu & -> & -> & -> & Hlen & Hbound & Hdrawn).
  exists (seed :: ns), (num :: nu).
  rewrite <- !app_assoc. simpl.
  split; [reflexivity |]. split; [reflexivity |]. split; [reflexivity |].
  split; [lia |]. split.
  - intros n Hn. specialize (Hbound n Hn).
    unfold max_repeats_reached in Hmax. rewrite Hn in Hmax.
    apply Nat.leb_gt in Hmax. lia.
  - constructor; [| assumption]. now exists w2, w3.
Qed.

(** What a returning call went through. *)
Lemma local_solver_ok (fuel : nat) (w w' : World) (sol : LocalSolution) :
  solve fuel w = (Py.Ok sol, w') ->
  Seeds sol <> []
  /\ Optima sol = map optimum_of (combine (Seeds sol) (Updates sol))
  /\ length (Seeds sol) = length (Updates sol)
  /\ (forall n, max_repeats = Some n -> length (Seeds sol) <= n)
  /\ Forall (fun u => exists w1 w2,
               randint (max_updates + 1) w1 = (Py.Ok u, w2)) (Updates sol).
Proof.
  unfold local_solver. intros Hrun.
  apply bind_ok in Hrun. destruct Hrun as (start & w1 & _ & Hrun).
  apply bind_ok in Hrun.
  destruct Hrun as ([[seeds updates] optima] & w2 & Hloop & Hrun).
  apply bind_ok in Hrun. destruct Hrun as (sa & w3 & Hsa & Hrun).
  apply lift_ok in Hsa. destruct Hsa as [Hsa ->].
  apply np_concatenate_ok in Hsa. destruct Hsa as [-> Hne].
  apply bind_ok in Hrun. destruct Hrun as (oa & w3 & Hoa & Hrun).
  apply lift_ok in Hoa. destruct Hoa as [Hoa ->].
  apply np_concatenate_ok in Hoa. destruct Hoa as [-> _].
  apply ret_ok in Hrun. destruct Hrun as [-> _].
  cbn [Seeds Updates Optima].
  destruct (local_solver_loop_ok _ _ _ _ _ _ _ _ _ _ Hloop)
    as (ns & nu & Hs & Hu & Ho & Hlen & Hbound & Hdrawn).
  simpl in Hs, Hu, Ho. subst seeds updates optima.
  split; [assumption |]. split; [reflexivity |]. split; [assumption |].
  split; [| assumption].
  intros n Hn. specialize (Hbound n Hn). lia.
Qed.

(** X13: the three arrays of a returned dictionary have the same, nonzero,
    number of entries, which is at most [max_repeats] when that is given. *)
Theorem local_solver_arrays_agree
    (fuel : nat) (w w' : World) (sol : LocalSolution) :
  solve fuel w = (Py.Ok sol, w') ->
  1 <= length (Seeds sol)
  /\ length (Updates sol) = length (Seeds sol)
  /\ length (Optima sol) = length (Seeds sol)
  /\ (forall n, max_repeats = Some n -> length (Seeds sol) <= n).
Proof.
  intros Hrun.
  destruct (local_solver_ok _ _ _ _ Hrun) as (Hne & Ho & Hlen & Hbound & _).
  split; [destruct (Seeds sol); [contradiction | simpl; lia] |].
  split; [now symmetry |]. split; [| assumption].
  rewrite Ho, length_map, length_combine. lia.
Qed.

(** X14: every optimum of a returned dictionary is the minimizer's answer
    from the seed of the same column moved by as many updates [v + f(v)] as
    the same entry of ["Updates"] says; the seed itself is kept as
    sampled. *)
Theorem optima_come_from_updated_seeds
    (fuel : nat) (w w' : World) (sol : LocalSolution) (k : nat)
    (seed : vec) (num_updates : nat) :
  solve fuel w = (Py.Ok sol, w') ->
  nth_error (Seeds sol) k = Some seed ->
  nth_error (Updates sol) k = Some num_updates ->
  nth_error (Optima sol) k
  = Some (minimize qg H (iterate_updates f num_updates seed)).
Proof.
  intros Hrun Hs Hu.
  destruct (local_solver_ok _ _ _ _ Hrun) as (_ & Ho & Hlen & _).
  rewrite Ho, nth_error_map.
  assert (Hc : nth_error (combine (Seeds sol) (Updates sol)) k
               = Some (seed, num_updates)).
  { clear Ho Hrun. revert k Hs Hu Hlen.
    generalize (Seeds sol) (Updates sol).
    induction l as [| s l IH]; intros [| u l0] [| k] Hs Hu Hlen;
      simpl in *; try discriminate.
    - now inversion Hs; inversion Hu.
    - apply IH; [assumption | assumption | lia]. }
  rewrite Hc. reflexivity.
Qed.

(** X15: when the random generator keeps below its bound, no entry of
    ["Updates"] exceeds [max_updates]; with [max_updates = 0] every optimum
    is then the minimizer's answer from the seed itself. *)
Theorem updates_within_max_updates
    (fuel : nat) (w w' : World) (sol : LocalSolution) :
  (forall n w1 r w2, randint n w1 = (Py.Ok r, w2) -> r < n) ->
  solve fuel w = (Py.Ok sol, w') ->
  Forall (fun u => u <= max_updates) (Updates sol)
  /\ (max_updates = 0 -> Optima sol = map (minimize qg H) (Seeds sol)).
Proof.
  intros Hbounded Hrun.
  destruct (local_solver_ok _ _ _ _ Hrun) as (_ & Ho & Hlen & _ & Hdrawn).
  assert (Hle : Forall (fun u => u <= max_updates) (Updates sol)).
  { eapply Forall_impl; [| exact Hdrawn].
    intros u (w1 & w2 & Hu). apply Hbounded in Hu. lia. }
  split; [exact Hle |].
  intros H0. rewrite Ho. clear Ho Hrun Hdrawn.
  revert Hle Hlen. generalize (Seeds sol) (Updates sol).
  induction l as [| s l IH]; intros [| u l0] Hle Hlen;
    simpl in *; try discriminate; [reflexivity |].
  inversion Hle as [| ? ? Hu Hrest]; subst.
  replace u with 0 by lia. simpl. f_equal. apply IH; [assumption | lia].
Qed.

End LocalSolverResults.

Section LocalSolverRuns.

Variables World QG Hess : Type.
Variable clock : Py.M World NP.float.
Variable sampler : Py.M World vec.
Variable randint : nat -> Py.M World nat.
Variable minimize : QG -> Hess -> vec -> vec.
Variable f : vec -> vec.
Variables (qg : QG) (H : Hess).
Variable max_updates : nat.

Hypothesis clock_returns :
  forall w, exists t w', clock w = (Py.Ok t, w').
Hypothesis sampler_returns :
  forall w, exists s w', sampler w = (Py.Ok s, w').
Hypothesis randint_returns :
  forall w, exists r w', randint (max_updates + 1) w = (Py.Ok r, w').

Local Abbreviation solve :=
  (local_solver clock sampler randint minimize f qg H).

Local Abbreviation loop :=
  (local_solver_loop clock sampler randint minimize f qg H).

(** One iteration that does not break. *)
Lemma local_solver_loop_step (max_repeats : option nat) (fuel repeat : nat)
    (seeds : list vec) (updates : list nat) (optima : list vec) (w : World) :
  max_repeats_reached max_repeats repeat = false ->
  exists seed num w',
    loop None max_repeats max_updates (S fuel) repeat seeds updates optima w
    = loop None max_repeats max_updates fuel (S repeat) (seeds ++ [seed])
        (updates ++ [num])
        (optima ++ [minimize qg H (iterate_updates f num seed)]) w'.
Proof.
  intros Hmax. cbn [local_solver_loop].
  unfold stop_time_reached, Py.bind at 1, Py.ret at 1. rewrite Hmax.
  destruct (sampler_returns w) as (seed & w1 & Hseed).
  unfold Py.bind at 1. rewrite Hseed.
  destruct (randint_returns w1) as (num & w2 & Hnum).
  unfold Py.bind at 1. rewrite Hnum.
  exists seed, num, w2. reflexivity.
Qed.

Lemma local_solver_loop_counts (n : nat) :
  forall (fuel repeat : nat) (seeds : list vec) (updates : list nat)
         (optima : list vec) (w : World),
    repeat <= n -> n - repeat < fuel ->
    exists seeds' updates' optima' w',
      loop None (Some n) max_updates fuel repeat seeds updates optima w
      = (Py.Ok (seeds', updates', optima'), w')
      /\ length seeds' = length seeds + (n - repeat)
      /\ length optima' = length optima + (n - repeat).
Proof.
  induction fuel as [| fuel IH];
    intros repeat seeds updates optima w Hle Hfuel; [lia |].
  destruct (Nat.eq_dec repeat n) as [-> | Hne].
  - exists seeds, updates, optima, w. cbn [local_solver_loop].
    unfold stop_time_reached, Py.bind at 1, Py.ret at 1.
    unfold max_repeats_reached. rewrite Nat.leb_refl.
    split; [reflexivity |]. rewrite Nat.sub_diag. lia.
  - destruct (local_solver_loop_step (Some n) fuel repeat seeds updates
                optima w) as (seed & num & w1 & Hstep).
    { unfold max_repeats_reached. apply Nat.leb_gt. lia. }
    rewrite Hstep.
    destruct (IH (S repeat) (seeds ++ [seed]) (updates ++ [num])
                (optima ++ [minimize qg H (iterate_updates f num seed)]) w1)
      as (s' & u' & o' & w' & Hrun & Hs & Ho); [lia | lia |].
    exists s', u', o', w'. split; [exact Hrun |].
    rewrite Hs, Ho, !length_app. simpl. lia.
Qed.

(** X16: without a deadline, a call with [max_repeats = n >= 1] returns a
    dictionary with exactly [n] seeds and [n] optima, provided the clock,
    the sampler and the random generator return. *)
Theorem local_solver_draws_max_repeats_samples
    (n fuel : nat) (w : World) :
  1 <= n ->
  n < fuel ->
  exists sol w',
    local_solver clock sampler randint minimize f qg H None (Some n)
      max_updates fuel w = (Py.Ok sol, w')
    /\ length (Seeds sol) = n
    /\ length (Optima sol) = n.
Proof.
  intros Hn Hfuel. unfold local_solver.
  destruct (clock_returns w) as (start & w1 & Hstart).
  unfold Py.bind at 1. rewrite Hstart.
  destruct (local_solver_loop_counts n fuel 0 [] [] [] w1)
    as (seeds & updates & optima & w2 & Hloop & Hs & Ho); [lia | lia |].
  unfold Py.bind at 1. rewrite Hloop.
  simpl in Hs, Ho. rewrite Nat.sub_0_r in Hs, Ho.
  destruct seeds as [| s0 seeds]; [simpl in Hs; lia |].
  destruct optima as [| o0 optima]; [simpl in Ho; lia |].
  eexists. eexists. split; [reflexivity |]. split; assumption.
Qed.

Lemma local_solver_loop_unbounded :
  forall (fuel repeat : nat) (seeds : list vec) (updates : list nat)
         (optima : list vec) (w : World),
    exists w',
      loop None None max_updates fuel repeat seeds updates optima w
      = (Py.NoFuel, w').
Proof.
  induction fuel as [| fuel IH]; intros repeat seeds updates optima w.
  - exists w. reflexivity.
  - destruct (local_solver_loop_step None fuel repeat seeds updates optima w)
      as (seed & num & w1 & Hstep); [reflexivity |].
    rewrite Hstep. apply IH.
Qed.

(** X17: without [stop_time] and without [max_repeats] the loop has no way
    out: whatever the number of iterations allowed, the call has not
    returned and has not raised (the clock, the sampler and the random
    generator returning). *)
Theorem local_solver_without_criteria_never_returns
    (fuel : nat) (w : World) :
  exists w',
    local_solver clock sampler randint minimize f qg H None None
      max_updates fuel w = (Py.NoFuel, w').
Proof.
  unfold local_solver.
  destruct (clock_returns w) as (start & w1 & Hstart).
  unfold Py.bind at 1. rewrite Hstart.
  destruct (local_solver_loop_unbounded fuel 0 [] [] [] w1) as (w2 & Hloop).
  unfold Py.bind at 1. rewrite Hloop. now exists w2.
Qed.

End LocalSolverRuns.

(** ** The further properties on the examples *)

Ltac evaluate_run Hrun :=
  let Hval := fresh "Hval" in
  pose proof Hrun as Hval; vm_compute in Hval; inversion Hval; subst;
  clear Hval.

Lemma endpoints_are_candidates_example :
  exists sol w',
    Cases.line_solver_with true true 9 0 = (Py.Ok sol, w')
    /\ 1 <= length (tr_points (Fiber_trace sol))
    /\ In 0 (Fixed_index sol)
    /\ In (length (tr_points (Fiber_trace sol)) - 1) (Fixed_index sol).
Proof.
  destruct (Cases.line_solver_with true true 9 0) as [[sol | e |] w']
    eqn:Hrun; [| vm_compute in Hrun; discriminate ..].
  exists sol, w'. split; [reflexivity |].
  apply endpoints_are_candidates in Hrun. exact Hrun.
Defined.

Lemma sign_change_is_extracted_example :
  exists sol w',
    Cases.line_solver_with false false 9 0 = (Py.Ok sol, w')
    /\ 3 + 1 < length (map alpha_of (tr_points (Fiber_trace sol)))
    /\ In 3 (Fixed_index sol) /\ In (3 + 1) (Fixed_index sol).
Proof.
  destruct (Cases.line_solver_with false false 9 0) as [[sol | e |] w']
    eqn:Hrun; [| vm_compute in Hrun; discriminate ..].
  exists sol, w'. split; [reflexivity |].
  evaluate_run Hrun.
  assert (Hi : 3 + 1 < 9) by lia.
  split; [exact Hi |].
  exact (sign_change_is_extracted _ _ _ _ _ _ _ _ _ _ _ _ _ _ _ _ _ _ _ _ _
           _ _ _ _ Hrun Hi eq_refl).
Defined.

Lemma candidate_iff_next_to_premarked_example :
  exists sol w',
    Cases.line_solver_with true false 9 0 = (Py.Ok sol, w')
    /\ (In 6 (Fixed_index sol) <->
        6 < length (map alpha_of (tr_points (Fiber_trace sol)))
        /\ exists j,
             j < length (map alpha_of (tr_points (Fiber_trace sol)))
             /\ (j = 6 \/ j + 1 = 6 \/ j = 6 + 1)
             /\ premarked true
                  (map alpha_of (tr_points (Fiber_trace sol))) j).
Proof.
  destruct (Cases.line_solver_with true false 9 0) as [[sol | e |] w']
    eqn:Hrun; [| vm_compute in Hrun; discriminate ..].
  exists sol, w'. split; [reflexivity |].
  exact (candidate_iff_next_to_premarked _ _ _ _ _ _ _ _ _ _ _ _ _ _ _ _ _
           _ _ _ _ _ _ _ 6 Hrun).
Defined.

Lemma short_trace_all_candidates_example :
  exists sol w',
    Cases.line_solver_with true false 3 0 = (Py.Ok sol, w')
    /\ length (tr_points (Fiber_trace sol)) <= 4
    /\ Fixed_index sol = seq 0 (length (tr_points (Fiber_trace sol))).
Proof.
  destruct (Cases.line_solver_with true false 3 0) as [[sol | e |] w']
    eqn:Hrun; [| vm_compute in Hrun; discriminate ..].
  exists sol, w'. split; [reflexivity |].
  evaluate_run Hrun.
  assert (Hshort : 3 <= 4) by lia.
  split; [exact Hshort |].
  exact (short_trace_all_candidates _ _ _ _ _ _ _ _ _ _ _ _ _ _ _ _ _ _ _ _
           _ _ _ _ Hrun Hshort).
Defined.

Lemma no_isolated_candidate_example :
  exists sol w',
    Cases.line_solver_with true false 9 0 = (Py.Ok sol, w')
    /\ 2 <= length (tr_points (Fiber_trace sol))
    /\ In 7 (Fixed_index sol)
    /\ ((1 <= 7 /\ In (7 - 1) (Fixed_index sol))
        \/ In (7 + 1) (Fixed_index sol)).
Proof.
  destruct (Cases.line_solver_with true false 9 0) as [[sol | e |] w']
    eqn:Hrun; [| vm_compute in Hrun; discriminate ..].
  exists sol, w'. split; [reflexivity |].
  evaluate_run Hrun.
  assert (HM : 2 <= 9) by lia.
  assert (Hin : In 7 [0; 1; 2; 3; 4; 5; 7; 8]) by (simpl; tauto).
  split; [exact HM |]. split; [exact Hin |].
  exact (no_isolated_candidate _ _ _ _ _ _ _ _ _ _ _ _ _ _ _ _ _ _ _ _ _ _
           _ _ 7 Hrun HM Hin).
Defined.

Lemma exact_root_is_candidate_example :
  exists sol w',
    Cases.line_solver_with true false 9 0 = (Py.Ok sol, w')
    /\ nth 4 (map alpha_of (tr_points (Fiber_trace sol))) NP.NaN = NP.Fin 0
    /\ In 4 (Fixed_index sol).
Proof.
  destruct (Cases.line_solver_with true false 9 0) as [[sol | e |] w']
    eqn:Hrun; [| vm_compute in Hrun; discriminate ..].
  exists sol, w'. split; [reflexivity |].
  evaluate_run Hrun.
  assert (Hi : 4 < 9) by lia.
  assert (Hq : (0 == 0)%Q) by reflexivity.
  split; [reflexivity |].
  exact (exact_root_is_candidate _ _ _ _ _ _ _ _ _ _ _ _ _ _ _ _ _ _ _ _ _
           _ _ 4 0%Q Hrun Hi eq_refl Hq).
Defined.

Lemma local_minima_only_add_candidates_example :
  exists sol sol' w1 w2,
    Cases.line_solver_with false false 9 0 = (Py.Ok sol, w1)
    /\ Cases.line_solver_with true false 9 0 = (Py.Ok sol', w2)
    /\ tr_points (Fiber_trace sol) = tr_points (Fiber_trace sol')
    /\ incl (Fixed_index sol) (Fixed_index sol').
Proof.
  destruct (Cases.line_solver_with false false 9 0) as [[sol | e |] w1]
    eqn:Hrun; [| vm_compute in Hrun; discriminate ..].
  destruct (Cases.line_solver_with true false 9 0) as [[sol' | e |] w2]
    eqn:Hrun'; [| vm_compute in Hrun'; discriminate ..].
  exists sol, sol', w1, w2. split; [reflexivity |]. split; [reflexivity |].
  evaluate_run Hrun. evaluate_run Hrun'.
  split; [reflexivity |].
  exact (local_minima_only_add_candidates nat unit unit unit
           Examples.line_tracer Examples.identity_f Examples.tolerance
           Examples.jacobian (Examples.constant_step (NP.Fin 1))
           (Some [NP.Fin (-5)]) (Some [NP.Fin 1]) None None None None None
           (Some 9) None None false false 0 0 0 0 _ _ Hrun Hrun' eq_refl).
Defined.

Lemma empty_trace_raises_example :
  Cases.solver_over Cases.empty_tracer true 0
  = (Py.Raise Py.ValueError, 1)
  /\ Cases.solver_over Cases.empty_tracer false 0
     = (Py.Raise Py.ValueError, 1).
Proof.
  split.
  - exact (empty_trace_raises nat unit unit unit Cases.empty_tracer
             Examples.identity_f Examples.tolerance Examples.jacobian
             (Examples.constant_step (NP.Fin 1))
             (Some [NP.Fin (-5)]) (Some [NP.Fin 1]) None None None None None
             (Some 9) None None true true 0 1 Cases.empty_trace
             eq_refl eq_refl).
  - exact (empty_trace_raises nat unit unit unit Cases.empty_tracer
             Examples.identity_f Examples.tolerance Examples.jacobian
             (Examples.constant_step (NP.Fin 1))
             (Some [NP.Fin (-5)]) (Some [NP.Fin 1]) None None None None None
             (Some 9) None None true false 0 1 Cases.empty_trace
             eq_refl eq_refl).
Defined.

Lemma refinement_without_points_raises_example :
  Cases.solver_over Cases.pointless_refiner true 0
  = (Py.Raise Py.IndexError, 1).
Proof.
  destruct (Examples.line_tracer Examples.line_args 0) as [[fr | e |] w1]
    eqn:Hfr; [| vm_compute in Hfr; discriminate ..].
  evaluate_run Hfr.
  eapply (refinement_without_points_raises nat unit unit unit
            Cases.pointless_refiner Examples.identity_f Examples.tolerance
            Examples.jacobian (Examples.constant_step (NP.Fin 1))
            (Some [NP.Fin (-5)]) (Some [NP.Fin 1]) None None None None None
            (Some 9) None None true 0 0 1 _ Cases.empty_trace).
  - exact Hfr.
  - reflexivity.
  - reflexivity.
  - reflexivity.
Defined.

Lemma newton_step_taken_within_fiber_step_example :
  (~ (2 == 0)%Q)
  /\ exists s,
       fst (compute_refine_step_amount
              (Examples.constant_step (NP.Fin (1 # 4)))
              Examples.descending_trace) = NP.Fin s
       /\ ((Qabs (- -1 / 2) <= 1 # 4)%Q -> (s == - -1 / 2)%Q)
       /\ ((1 # 4 < Qabs (- -1 / 2))%Q ->
           (s == NP.Qsign (- -1 / 2) * (1 # 4))%Q).
Proof.
  assert (Hz : ~ (2 == 0)%Q) by discriminate.
  split; [exact Hz |].
  exact (newton_step_taken_within_fiber_step unit
           (Examples.constant_step (NP.Fin (1 # 4)))
           Examples.descending_trace (-1) 2 (1 # 4) (Opaque tt)
           eq_refl eq_refl Hz eq_refl).
Defined.

Lemma counting_randint_bounded (n w1 r w2 : nat) :
  Cases.counting_randint n w1 = (Py.Ok r, w2) -> r < n.
Proof.
  unfold Cases.counting_randint. destruct n as [| n]; intros Heq;
    [discriminate |].
  assert (Hr : r = w1 mod S n) by (injection Heq as Hr _; now symmetry).
  rewrite Hr. apply Nat.mod_upper_bound. discriminate.
Qed.

Lemma counting_sampler_returns (w : nat) :
  exists s w', Cases.counting_sampler w = (Py.Ok s, w').
Proof. eexists. eexists. reflexivity. Qed.

Lemma counting_randint_returns (max_updates w : nat) :
  exists r w', Cases.counting_randint (max_updates + 1) w = (Py.Ok r, w').
Proof.
  unfold Cases.counting_randint. rewrite Nat.add_1_r.
  eexists. eexists. reflexivity.
Qed.

Example counting_solver_three_samples :
  Cases.counting_solver (Some 3) 2 10 0
  = (Py.Ok {| Seeds := [[NP.Fin 1]; [NP.Fin 3]; [NP.Fin 5]];
              Updates := [2; 1; 0];
              Optima := [[NP.Fin 3]; [NP.Fin 4]; [NP.Fin 5]] |}, 7).
Proof. vm_compute. reflexivity. Qed.

Lemma local_solver_arrays_agree_example :
  exists sol w',
    Cases.counting_solver (Some 3) 2 10 0 = (Py.Ok sol, w')
    /\ 1 <= length (Seeds sol)
    /\ length (Updates sol) = length (Seeds sol)
    /\ length (Optima sol) = length (Seeds sol)
    /\ (forall n, Some 3 = Some n -> length (Seeds sol) <= n).
Proof.
  destruct (Cases.counting_solver (Some 3) 2 10 0) as [[sol | e |] w']
    eqn:Hrun; [| vm_compute in Hrun; discriminate ..].
  exists sol, w'. split; [reflexivity |].
  exact (local_solver_arrays_agree nat unit unit Examples.tick
           Cases.counting_sampler Cases.counting_randint Examples.keep
           Cases.add_one tt tt None (Some 3) 2 10 0 w' sol Hrun).
Defined.

Lemma optima_come_from_updated_seeds_example :
  exists sol w',
    Cases.counting_solver (Some 3) 2 10 0 = (Py.Ok sol, w')
    /\ nth_error (Seeds sol) 0 = Some [NP.Fin 1]
    /\ nth_error (Updates sol) 0 = Some 2
    /\ nth_error (Optima sol) 0
       = Some (Examples.keep tt tt
                 (iterate_updates Cases.add_one 2 [NP.Fin 1])).
Proof.
  destruct (Cases.counting_solver (Some 3) 2 10 0) as [[sol | e |] w']
    eqn:Hrun; [| vm_compute in Hrun; discriminate ..].
  exists sol, w'. split; [reflexivity |].
  evaluate_run Hrun.
  split; [reflexivity |]. split; [reflexivity |].
  exact (optima_come_from_updated_seeds nat unit unit Examples.tick
           Cases.counting_sampler Cases.counting_randint Examples.keep
           Cases.add_one tt tt None (Some 3) 2 10 0 7 _ 0 [NP.Fin 1] 2
           Hrun eq_refl eq_refl).
Defined.

Lemma updates_within_max_updates_example :
  exists sol w',
    Cases.counting_solver (Some 3) 2 10 0 = (Py.Ok sol, w')
    /\ Forall (fun u => u <= 2) (Updates sol).
Proof.
  destruct (Cases.counting_solver (Some 3) 2 10 0) as [[sol | e |] w']
    eqn:Hrun; [| vm_compute in Hrun; discriminate ..].
  exists sol, w'. split; [reflexivity |].
  exact (proj1 (updates_within_max_updates nat unit unit Examples.tick
                  Cases.counting_sampler Cases.counting_randint Examples.keep
                  Cases.add_one tt tt None (Some 3) 2 10 0 w' sol
                  counting_randint_bounded Hrun)).
Defined.

Lemma local_solver_draws_max_repeats_samples_example :
  (1 <= 3 /\ 3 < 10)
  /\ exists sol w',
       Cases.counting_solver (Some 3) 2 10 0 = (Py.Ok sol, w')
       /\ length (Seeds sol) = 3
       /\ length (Optima sol) = 3.
Proof.
  assert (H1 : 1 <= 3) by lia. assert (H2 : 3 < 10) by lia.
  split; [split; assumption |].
  exact (local_solver_draws_max_repeats_samples nat unit unit Examples.tick
           Cases.counting_sampler Cases.counting_randint Examples.keep
           Cases.add_one tt tt 2 tick_returns counting_sampler_returns
           (counting_randint_returns 2) 3 10 0 H1 H2).
Defined.

Lemma local_solver_without_criteria_never_returns_example :
  exists w', Cases.counting_solver None 2 10 0 = (Py.NoFuel, w').
Proof.
  exact (local_solver_without_criteria_never_returns nat unit unit
           Examples.tick Cases.counting_sampler Cases.counting_randint
           Examples.keep Cases.add_one tt tt 2 tick_returns
           counting_sampler_returns (counting_randint_returns 2) 10 0).
Defined.
